(** * Subset-sum ordering: greedy partition, digit maps and the verifier

    A shallow embedding of [subset_sum_ordering.py].  Python integers are
    unbounded, so they are modelled by [Z]; Python lists by [list]; a call
    that may raise [IndexError] returns [option], with [None] standing for
    the exception. *)

From stdpp Require Import base decidable option numbers list sorting.

Local Open Scope Z_scope.

(** ** The Python builtins the program uses *)

Module Py.

(** [len(l)] *)
Definition len {A} (l : list A) : Z := Z.of_nat (length l).

(** [range(n)]: empty when [n <= 0]. *)
Definition range (n : Z) : list Z := seqZ 0 n.

(** [range(k - 1, -1, -1)] *)
Definition range_down (k : Z) : list Z := reverse (seqZ 0 k).

(** [sum(l)] *)
Definition sum (l : list Z) : Z := foldr Z.add 0 l.

(** [l[i]]: a negative index counts from the end, and an index outside
    [-len(l) .. len(l) - 1] raises [IndexError]. *)
Definition index {A} (l : list A) (i : Z) : option A :=
  if bool_decide (0 ≤ i) then l !! Z.to_nat i
  else if bool_decide (- len l ≤ i) then l !! Z.to_nat (len l + i)
  else None.

(** [sorted(l)] for a total order [R] on the elements.  Both orders used
    by the program (integers, and pairs of integers compared
    lexicographically) are antisymmetric, so the sorted list does not
    depend on the sorting algorithm. *)
Definition sorted {A} (R : relation A) `{!RelDecision R} (l : list A) : list A :=
  merge_sort R l.

(** [itertools.product], applied to the pools: tuples in lexicographic
    order, the rightmost position advancing fastest. *)
Fixpoint product {A} (pools : list (list A)) : list (list A) :=
  match pools with
  | [] => [[]]
  | pool :: pools' => x ← pool; (x ::.) <$> product pools'
  end.

End Py.

(** Python compares tuples lexicographically. *)
Definition tuple_le (p q : Z * Z) : Prop :=
  p.1 < q.1 ∨ (p.1 = q.1 ∧ p.2 ≤ q.2).

Global Instance tuple_le_dec : RelDecision tuple_le.
Proof. intros p q. unfold tuple_le. apply _. Defined.

(** ** [subset_sum_ordering] *)

(** The variables the [for] loop of [subset_sum_ordering] updates. *)
Record loop_state := LoopState {
  groups : list (list Z);
  current_group : list Z;
  prefix_sum : Z
}.

(** One iteration of [for num in sorted_nums]. *)
Definition loop_body (st : loop_state) (num : Z) : loop_state :=
  let st' :=
    if bool_decide (current_group st ≠ [] ∧ prefix_sum st < num)
    then LoopState (groups st ++ [current_group st]) [] (prefix_sum st)
    else st in
  LoopState (groups st') (current_group st' ++ [num]) (prefix_sum st' + num).

Definition radix_of (g : list Z) : Z := 2 ^ Py.len g.

Definition subset_sum_ordering (nums : list Z) : list (list Z) * list Z :=
  if bool_decide (nums = []) then ([], [])
  else
    let sorted_nums := Py.sorted Z.le nums in
    let st := foldl loop_body (LoopState [] [] 0) sorted_nums in
    let groups := groups st ++ [current_group st] in
    (groups, radix_of <$> groups).

(** ** [build_digit_map] *)

(** [sum(group[i] for i in range(n) if mask >> i & 1)].  The index [i]
    ranges over [range(len(group))], so [group[i]] cannot raise (lemma
    [mask_sum_index_in_bounds] below) and the total lookup is used. *)
Definition mask_sum (group : list Z) (n mask : Z) : Z :=
  Py.sum ((λ i, group !!! Z.to_nat i)
            <$> filter (λ i, Z.land (mask ≫ i) 1 ≠ 0) (Py.range n)).

Definition build_digit_map (group : list Z) : list (Z * Z) :=
  let n := Py.len group in
  Py.sorted tuple_le ((λ mask, (mask_sum group n mask, mask)) <$> Py.range (2 ^ n)).

(** ** [verify] *)

(** The dictionary returned with a failed verification; [diag_sum] is its
    key ["sum"]. *)
Record diagnostic := Diagnostic {
  at_index : Z;
  digits : list Z;
  diag_sum : Z;
  prev_sum : Z
}.

(** [sum(digit_maps[g][digits[g]][0] for g in range(k))] *)
Definition digits_total (digit_maps : list (list (Z * Z))) (k : Z)
    (digits : list Z) : option Z :=
  Py.sum <$> mapM (λ g,
    dm ← Py.index digit_maps g;
    d ← Py.index digits g;
    e ← Py.index dm d;
    Some e.1) (Py.range k).

(** The [for i, digits_msb_first in enumerate(product(...))] loop, from
    position [i] on, with the loop variable [prev_sum]. *)
Fixpoint verify_loop (digit_maps : list (list (Z * Z))) (k : Z) (i : Z)
    (prev : option Z) (tuples : list (list Z)) : option (bool * option diagnostic) :=
  match tuples with
  | [] => Some (true, None)
  | digits_msb_first :: tuples' =>
      let digits := reverse digits_msb_first in
      total ← digits_total digit_maps k digits;
      match prev with
      | Some p =>
          if bool_decide (total < p)
          then Some (false, Some (Diagnostic i digits total p))
          else verify_loop digit_maps k (i + 1) (Some total) tuples'
      | None => verify_loop digit_maps k (i + 1) (Some total) tuples'
      end
  end.

(** [product] over the pools [range(radices[j])], [j] running through
    [range(k - 1, -1, -1)]: the tuples [(d_{k-1}, ..., d_0)] the loop of
    [verify] runs over, in order.  The pools are built before the first
    tuple is produced, so a radix vector shorter than [k] raises here. *)
Definition digit_tuples (radices : list Z) (k : Z) : option (list (list Z)) :=
  pools ← mapM (λ j, Py.range <$> Py.index radices j) (Py.range_down k);
  Some (Py.product pools).

Definition verify (partition : list (list Z)) (radices : list Z)
    : option (bool * option diagnostic) :=
  let k := Py.len partition in
  if bool_decide (k = 0) then Some (true, None)
  else
    let digit_maps := build_digit_map <$> partition in
    tuples ← digit_tuples radices k;
    verify_loop digit_maps k 0 None tuples.

(** The two calls of the demonstration driver:
    [partition, radices = subset_sum_ordering(nums)] followed by
    [verify(partition, radices)]. *)
Definition verify_ordering (nums : list Z) : option (bool * option diagnostic) :=
  let '(partition, radices) := subset_sum_ordering nums in
  verify partition radices.

(** The subset count the driver prints: [total_subsets = 1] followed by
    [total_subsets *= r] for each radix [r]. *)
Definition total_subsets (radices : list Z) : Z := foldl Z.mul 1 radices.

(** The example inputs of the driver. *)
Definition examples : list (list Z) :=
  [[1; 20; 5; 6; 2]; [1; 2; 3; 4]; [3; 5; 6; 7]; [1; 1; 2; 4];
   [1; 2; 4; 8; 16]; [10]].

(** What the driver computes for one example before printing it: the
    partition, the radices, the subset count and the result of [verify]. *)
Definition driver_row (nums : list Z)
    : list (list Z) * list Z * Z * option (bool * option diagnostic) :=
  let '(partition, radices) := subset_sum_ordering nums in
  (partition, radices, total_subsets radices, verify partition radices).

(** * Specification vocabulary *)

(** The group-domination invariant of a partition: everything before group
    [i] sums to less than each element of group [i]. *)
Definition dominated (partition : list (list Z)) : Prop :=
  ∀ i g x, (1 ≤ i)%nat → partition !! i = Some g → x ∈ g →
    Py.sum (concat (take i partition)) < x.

(** The invariant the [for] loop of [subset_sum_ordering] maintains, with
    [l] the part of the sorted input still to be read. *)
Record loop_inv (st : loop_state) (l : list Z) : Prop := LoopInv {
  inv_dominated : dominated (groups st);
  inv_open : groups st ≠ [] → ∀ x, x ∈ current_group st →
    Py.sum (concat (groups st)) < x;
  inv_open_nonempty : groups st ≠ [] → current_group st ≠ [];
  inv_closed_nonempty : Forall (λ g, g ≠ []) (groups st);
  inv_prefix_sum :
    prefix_sum st = Py.sum (concat (groups st)) + Py.sum (current_group st);
  inv_ascending : ∀ x y, x ∈ current_group st → y ∈ l → x ≤ y;
  inv_sorted : StronglySorted Z.le l
}.

(** The values of [group] at the positions whose bit is set in [mask],
    the head of [group] being at position [i]. *)
Fixpoint selected_from (i : Z) (group : list Z) (mask : Z) : list Z :=
  match group with
  | [] => []
  | x :: group' =>
      (if Z.testbit mask i then [x] else []) ++ selected_from (i + 1) group' mask
  end.

Definition selected (group : list Z) (mask : Z) : list Z :=
  selected_from 0 group mask.

(** Strict lexicographic order on (sum, bitmask) pairs: ascending sum,
    ties broken by ascending bitmask. *)
Definition tuple_lt (p q : Z * Z) : Prop :=
  p.1 < q.1 ∨ (p.1 = q.1 ∧ p.2 < q.2).

(** The mixed-radix representation of [i], least significant digit first:
    digit [g] has radix [radices[g]], so group 0 is the least significant
    position and the last group the most significant one. *)
Fixpoint mixed_radix (radices : list Z) (i : Z) : list Z :=
  match radices with
  | [] => []
  | r :: radices' => i `mod` r :: mixed_radix radices' (i `div` r)
  end.

(** The number a digit tuple denotes in the mixed-radix system. *)
Fixpoint radix_value (radices digits : list Z) : Z :=
  match radices, digits with
  | r :: radices', d :: digits' => d + r * radix_value radices' digits'
  | _, _ => 0
  end.

(** The number of digit tuples: the product of the radices. *)
Definition num_tuples (radices : list Z) : Z := foldr Z.mul 1 radices.

(** The radix vector goes with the partition: [radices[i] = 2^len(partition[i])]
    at every position [i] of the partition. *)
Definition radices_match (partition : list (list Z)) (radices : list Z) : Prop :=
  ∀ i g, partition !! i = Some g → radices !! i = Some (2 ^ Py.len g).

(** The digit tuple at position [i] of the enumeration, aligned with the
    partition, and its subset sum as [verify] computes it. *)
Definition digits_at (partition : list (list Z)) (i : Z) : list Z :=
  mixed_radix (radix_of <$> partition) i.

Definition total_at (partition : list (list Z)) (i : Z) : Z :=
  default 0 (digits_total (build_digit_map <$> partition) (Py.len partition)
               (digits_at partition i)).

(** A group is tight above [acc], the sum of everything before it: no
    element after its first exceeds [acc] plus the elements of the group
    before it, so the greedy scan could not have cut inside the group. *)
Definition tight (acc : Z) (g : list Z) : Prop :=
  ∀ g1 x g2, g = g1 ++ x :: g2 → g1 ≠ [] → x ≤ acc + Py.sum g1.

Definition all_tight (partition : list (list Z)) : Prop :=
  ∀ j g, partition !! j = Some g → tight (Py.sum (concat (take j partition))) g.

(** The sum recorded in entry [d] of the digit map of group [g]. *)
Definition digit_sum (g : list Z) (d : Z) : Z :=
  (build_digit_map g !!! Z.to_nat d).1.

(** The subset sum of a digit tuple taken group by group. *)
Fixpoint tuple_total (partition : list (list Z)) (digits : list Z) : Z :=
  match partition, digits with
  | g :: partition', d :: digits' => digit_sum g d + tuple_total partition' digits'
  | _, _ => 0
  end.

(** In every group, two consecutive digits are at least [acc] apart in
    sum, [acc] growing from group to group by the distance between the
    first and the last digit of the group. *)
Fixpoint gaps_cover (acc : Z) (partition : list (list Z)) : Prop :=
  match partition with
  | [] => True
  | g :: partition' =>
      (∀ d, 0 ≤ d → d + 1 < radix_of g →
         acc ≤ digit_sum g (d + 1) - digit_sum g d)
      ∧ gaps_cover (acc + (digit_sum g (radix_of g - 1) - digit_sum g 0)) partition'
  end.

(** The gap condition on a partition: in the digit map of every group,
    the sums of two consecutive digits differ by at least the sum of all
    elements of the earlier groups. *)
Definition gap_condition (partition : list (list Z)) : Prop :=
  ∀ j g d s mask s' mask',
    partition !! j = Some g →
    build_digit_map g !! d = Some (s, mask) →
    build_digit_map g !! S d = Some (s', mask') →
    Py.sum (concat (take j partition)) ≤ s' - s.

(** Every element exceeds the sum of all elements before it. *)
Definition super_increasing (l : list Z) : Prop :=
  ∀ l1 x l2, l = l1 ++ x :: l2 → Py.sum l1 < x.

(** The bitmask recorded in entry [d] of the digit map of group [g], and
    the elements of the partition a digit tuple selects. *)
Definition digit_mask (g : list Z) (d : Z) : Z :=
  (build_digit_map g !!! Z.to_nat d).2.

Fixpoint tuple_subset (partition : list (list Z)) (digits : list Z) : list Z :=
  match partition, digits with
  | g :: partition', d :: digits' =>
      selected g (digit_mask g d) ++ tuple_subset partition' digits'
  | _, _ => []
  end.

(** The subset sum a digit tuple stands for: digit [d] of group [g]
    selects the elements of [g] whose bit is set in the bitmask stored at
    entry [d] of the group's digit map, and the selected elements of all
    groups are added up.  There is no such sum when a digit has no entry
    in its digit map or when the tuple has fewer digits than there are
    groups.  Digits are taken to be non-negative. *)
Fixpoint subset_total (partition : list (list Z)) (digits : list Z) : option Z :=
  match partition with
  | [] => Some 0
  | g :: partition' =>
      match digits with
      | [] => None
      | d :: digits' =>
          e ← build_digit_map g !! Z.to_nat d;
          t ← subset_total partition' digits';
          Some (Py.sum (selected g e.2) + t)
      end
  end.

(** The number of tuples with digit [g] in [range(radices[g])]: the
    product of the radices, a radix that is zero or negative counting as
    zero. *)
Definition enum_count (radices : list Z) : Z :=
  foldr (λ r n, Z.max 0 r * n) 1 radices.

(** * Properties *)

(** ** Sorting *)

Global Instance tuple_le_total : Total tuple_le.
Proof. intros [a b] [c d]. unfold tuple_le. simpl. lia. Qed.

Global Instance tuple_le_trans : Transitive tuple_le.
Proof. intros [a b] [c d] [e f]. unfold tuple_le. simpl. lia. Qed.

Global Instance tuple_le_antisymm : AntiSymm (=) tuple_le.
Proof.
  intros [a b] [c d]. unfold tuple_le. simpl. intros H1 H2.
  f_equal; lia.
Qed.

Section sorted.
Context {A} (R : relation A) `{!RelDecision R}.
Context `{!Total R, !Transitive R, !AntiSymm (=) R}.

Lemma sorted_Permutation l : Py.sorted R l ≡ₚ l.
Proof. apply merge_sort_Permutation. Qed.

Lemma sorted_StronglySorted l : StronglySorted R (Py.sorted R l).
Proof. apply StronglySorted_merge_sort; apply _. Qed.

(** The sorted list is determined by the multiset of its elements. *)
Lemma sorted_unique l l' : l ≡ₚ l' → Py.sorted R l = Py.sorted R l'.
Proof.
  intros Hp. apply (StronglySorted_unique R); try apply sorted_StronglySorted.
  by rewrite !sorted_Permutation.
Qed.

End sorted.

(** ** The partitioner *)

Lemma sum_app l1 l2 : Py.sum (l1 ++ l2) = Py.sum l1 + Py.sum l2.
Proof. induction l1 as [|x l1 IH]; simpl; lia. Qed.

(** What the loop has consumed is the groups closed so far followed by the
    open group. *)
Lemma loop_concat l st :
  concat (groups (foldl loop_body st l)) ++ current_group (foldl loop_body st l)
  = concat (groups st) ++ current_group st ++ l.
Proof.
  revert st. induction l as [|num l IH]; intros st; simpl.
  - by rewrite app_nil_r.
  - rewrite IH. unfold loop_body. case_bool_decide; simpl.
    + rewrite concat_app. simpl. by rewrite app_nil_r, <- !app_assoc.
    + by rewrite <- !app_assoc.
Qed.

Lemma subset_sum_ordering_concat nums :
  concat (subset_sum_ordering nums).1 = Py.sorted Z.le nums.
Proof.
  unfold subset_sum_ordering. case_bool_decide as Hn; simpl.
  - by subst.
  - rewrite concat_app. simpl. rewrite app_nil_r. by rewrite loop_concat.
Qed.

Lemma subset_sum_ordering_radices nums :
  (subset_sum_ordering nums).2 = radix_of <$> (subset_sum_ordering nums).1.
Proof. unfold subset_sum_ordering. by case_bool_decide. Qed.

Lemma dominated_snoc gs g :
  dominated gs →
  (gs ≠ [] → ∀ x, x ∈ g → Py.sum (concat gs) < x) →
  dominated (gs ++ [g]).
Proof.
  intros Hd Hg i g' x Hi Hl Hx.
  destruct (decide (i < length gs)%nat) as [Hlt|Hge].
  - rewrite lookup_app_l in Hl by done.
    rewrite take_app_le by lia. by eapply Hd.
  - rewrite lookup_app_r in Hl by lia.
    destruct (i - length gs)%nat as [|n] eqn:E; simpl in Hl; [|done].
    simplify_eq. assert (i = length gs) as -> by lia.
    rewrite take_app_length. apply Hg; [|done].
    intros ->. simpl in *. lia.
Qed.

Lemma loop_body_inv st num l :
  loop_inv st (num :: l) → loop_inv (loop_body st num) l.
Proof.
  intros [Hd Ho Hne Hcl Hps Hasc Hs].
  apply StronglySorted_inv in Hs as [Hs Hhd]. rewrite Forall_forall in Hhd.
  unfold loop_body. case_bool_decide as Hcut; simpl.
  - destruct Hcut as [Hcur Hlt]. split; simpl.
    + by apply dominated_snoc.
    + intros _ x ->%list_elem_of_singleton.
      rewrite concat_app, sum_app. simpl. rewrite app_nil_r. lia.
    + done.
    + apply Forall_app. split; [done|]. by apply Forall_singleton.
    + rewrite concat_app, sum_app. simpl. rewrite app_nil_r. lia.
    + intros x y ->%list_elem_of_singleton Hy. by apply Hhd.
    + done.
  - split; simpl.
    + done.
    + intros Hg x [Hx| ->%list_elem_of_singleton]%elem_of_app; [by apply Ho|].
      destruct (current_group st) as [|x0 cur] eqn:Ecur; [by destruct Hne|].
      assert (Py.sum (concat (groups st)) < x0)
        by (apply Ho; [done|apply list_elem_of_here]).
      assert (x0 ≤ num) by (apply Hasc; apply list_elem_of_here).
      lia.
    + intros _. by destruct (current_group st).
    + done.
    + rewrite sum_app. simpl. lia.
    + intros x y [Hx| ->%list_elem_of_singleton]%elem_of_app Hy.
      * apply Hasc; [done|]. by apply list_elem_of_further.
      * by apply Hhd.
    + done.
Qed.

Lemma loop_inv_foldl l st :
  loop_inv st l → loop_inv (foldl loop_body st l) [].
Proof.
  revert st. induction l as [|num l IH]; intros st Hinv; simpl; [done|].
  by apply IH, loop_body_inv.
Qed.

Lemma loop_inv_init l : StronglySorted Z.le l → loop_inv (LoopState [] [] 0) l.
Proof.
  intros Hs. split; simpl; try done.
  intros x y Hx. by apply elem_of_nil in Hx.
Qed.

Lemma foldl_loop_body_open_nonempty l st :
  l ≠ [] → current_group (foldl loop_body st l) ≠ [].
Proof.
  revert st. induction l as [|num l IH]; intros st Hl; [done|]. simpl.
  destruct l as [|num' l]; [|by apply IH].
  simpl. unfold loop_body. case_bool_decide; simpl; [done|].
  by destruct (current_group st).
Qed.

Lemma subset_sum_ordering_dominated nums :
  dominated (subset_sum_ordering nums).1
  ∧ Forall (λ g, g ≠ []) (subset_sum_ordering nums).1.
Proof.
  unfold subset_sum_ordering. case_bool_decide as Hn; simpl.
  - split; [|done]. by intros i g x _ Hl.
  - pose proof (loop_inv_foldl _ _
      (loop_inv_init _ (sorted_StronglySorted Z.le nums))) as [Hd Ho _ Hcl _ _ _].
    split.
    + by apply dominated_snoc.
    + apply Forall_app. split; [done|]. apply Forall_singleton.
      apply foldl_loop_body_open_nonempty.
      intros Hnil. apply Hn, Permutation_nil_r.
      rewrite <- Hnil. by rewrite sorted_Permutation.
Qed.

(** ** Claims about the partitioner *)

(** C4: in the partition returned by [subset_sum_ordering], every group
    with index [i >= 1] is non-empty and each of its elements, hence its
    minimum, is strictly greater than the sum of all elements of groups
    [0 .. i-1].  The property holds for every input list; positivity of
    the elements is not needed. *)
Theorem subset_sum_ordering_group_domination (nums : list Z) (i : nat) (g : list Z) :
  (1 ≤ i)%nat →
  (subset_sum_ordering nums).1 !! i = Some g →
  g ≠ [] ∧
  ∀ x, x ∈ g → Py.sum (concat (take i (subset_sum_ordering nums).1)) < x.
Proof.
  intros Hi Hg. destruct (subset_sum_ordering_dominated nums) as [Hd Hne].
  split.
  - rewrite Forall_forall in Hne. apply Hne. by eapply list_elem_of_lookup_2.
  - intros x Hx. by eapply Hd.
Qed.

Lemma subset_sum_ordering_group_domination_witness :
  (1 ≤ 2)%nat ∧
  (subset_sum_ordering [1; 20; 5; 6; 2]).1 !! 2%nat = Some [5; 6] ∧
  ([5; 6] ≠ [] ∧
   ∀ x, x ∈ [5; 6] →
     Py.sum (concat (take 2 (subset_sum_ordering [1; 20; 5; 6; 2]).1)) < x).
Proof.
  split; [lia|]. split; [vm_compute; reflexivity|].
  apply (subset_sum_ordering_group_domination [1; 20; 5; 6; 2] 2 [5; 6]);
    [lia | vm_compute; reflexivity].
Defined.

(** C5: the groups returned by [subset_sum_ordering], concatenated in
    order, are the input sorted ascending (an ascending list that is a
    permutation of the input, so every element occurs exactly as often as
    in the input), and the radix at each position is 2 to the size of the
    group at that position.  This holds for every input list, the non-empty
    lists of positive integers among them. *)
Theorem subset_sum_ordering_flattens_to_sorted_input (nums : list Z) :
  let '(partition, radices) := subset_sum_ordering nums in
  concat partition = Py.sorted Z.le nums ∧
  StronglySorted Z.le (concat partition) ∧
  concat partition ≡ₚ nums ∧
  length radices = length partition ∧
  ∀ i g, partition !! i = Some g → radices !! i = Some (2 ^ Py.len g).
Proof.
  pose proof (subset_sum_ordering_concat nums) as Hc.
  pose proof (subset_sum_ordering_radices nums) as Hr.
  destruct (subset_sum_ordering nums) as [partition radices]. simpl in *.
  subst radices. rewrite Hc. split_and!.
  - done.
  - apply (sorted_StronglySorted Z.le).
  - apply (sorted_Permutation Z.le).
  - by rewrite length_fmap.
  - intros i g Hg. by rewrite list_lookup_fmap, Hg.
Qed.

(** C8: [subset_sum_ordering] gives the same partition and the same
    radices on a list and on any permutation of it; a repeated call on the
    same input gives the same result, the function being pure. *)
Theorem subset_sum_ordering_permutation_invariant (nums nums' : list Z) :
  nums ≡ₚ nums' →
  subset_sum_ordering nums = subset_sum_ordering nums'
  ∧ subset_sum_ordering nums = subset_sum_ordering nums.
Proof.
  intros Hp. split; [|done]. unfold subset_sum_ordering.
  rewrite (sorted_unique Z.le nums nums' Hp).
  destruct nums as [|x nums], nums' as [|y nums']; try done.
  - by apply Permutation_nil_cons in Hp.
  - symmetry in Hp. by apply Permutation_nil_cons in Hp.
Qed.

Lemma subset_sum_ordering_permutation_invariant_witness :
  [1; 20; 5] ≡ₚ [20; 1; 5] ∧
  subset_sum_ordering [1; 20; 5] = subset_sum_ordering [20; 1; 5]
  ∧ subset_sum_ordering [1; 20; 5] = subset_sum_ordering [1; 20; 5].
Proof.
  split; [apply perm_swap|].
  apply (subset_sum_ordering_permutation_invariant [1; 20; 5] [20; 1; 5]).
  apply perm_swap.
Defined.

(** C9: on the empty input [subset_sum_ordering] returns the empty
    partition and the empty radix vector, and [verify] on these returns
    [(True, None)]. *)
Theorem empty_input_boundary :
  subset_sum_ordering [] = ([], []) ∧ verify [] [] = Some (true, None).
Proof. split; reflexivity. Qed.

(** C2 (the claim as stated fails): on [[1, 20, 5, 6, 2]] the partition
    is not [[[1, 2, 5, 6], [20]]] with radices [[16, 2]]. *)
Lemma motivating_example_not_as_claimed :
  ¬ (let '(partition, radices) := subset_sum_ordering [1; 20; 5; 6; 2] in
     partition = [[1; 2; 5; 6]; [20]] ∧ radices = [16; 2]
     ∧ verify partition radices = Some (true, None)).
Proof. vm_compute. intros [H _]. congruence. Qed.

(** C2 (amended): on [[1, 20, 5, 6, 2]], sorted to [[1, 2, 5, 6, 20]],
    the greedy cut closes a group whenever the running prefix sum is below
    the next element: [1 < 2], [3 < 5] and [14 < 20] cut, [8 < 6] does not.
    The partition is [[[1], [2], [5, 6], [20]]], the radices [[2, 2, 4, 2]]. *)
Theorem motivating_example_partition :
  subset_sum_ordering [1; 20; 5; 6; 2] = ([[1]; [2]; [5; 6]; [20]], [2; 2; 4; 2]).
Proof. vm_compute. reflexivity. Qed.

(** C3 (the claim as stated fails): on [[1, 1, 2, 4]] the partition is
    not [[[1, 1, 2], [4]]] with radices [[8, 2]]. *)
Lemma multiset_example_not_as_claimed :
  ¬ (let '(partition, radices) := subset_sum_ordering [1; 1; 2; 4] in
     partition = [[1; 1; 2]; [4]] ∧ radices = [8; 2]
     ∧ verify partition radices = Some (true, None)).
Proof. vm_compute. intros [H _]. congruence. Qed.

(** C3 (amended): on [[1, 1, 2, 4]] no prefix sum is strictly below the
    next element ([1 < 1], [2 < 2] and [4 < 4] all fail), so there is a
    single group [[1, 1, 2, 4]] with radix [16], and [verify] on that
    result returns [(True, None)]. *)
Theorem multiset_example_partition :
  subset_sum_ordering [1; 1; 2; 4] = ([[1; 1; 2; 4]], [16])
  ∧ verify [[1; 1; 2; 4]] [16] = Some (true, None).
Proof. split; vm_compute; reflexivity. Qed.

(** C1 (the code fails the claim): on the program's own motivating
    example [[1, 20, 5, 6, 2]] the partition is [[[1], [2], [5, 6], [20]]],
    and [verify] on the pair returned by [subset_sum_ordering] reports a
    violation at position 8: the digits [(0, 0, 2, 0)] select the subset
    [{6}] of sum 6, while position 7 selects [{1, 2, 5}] of sum 8. *)
Theorem verify_ordering_motivating_example :
  verify_ordering [1; 20; 5; 6; 2]
  = Some (false, Some (Diagnostic 8 [0; 0; 2; 0] 6 8)).
Proof. vm_compute. reflexivity. Qed.

(** Two smaller inputs on which the returned partition fails [verify]: a
    later group with two subsets of equal sum, and one whose subset sums
    are closer together than the sum of the earlier groups. *)
Example verify_ordering_equal_sums :
  verify_ordering [1; 2; 2] = Some (false, Some (Diagnostic 4 [0; 2] 2 3)).
Proof. vm_compute. reflexivity. Qed.

Example verify_ordering_close_sums :
  verify_ordering [1; 2; 5; 6] = Some (false, Some (Diagnostic 8 [0; 0; 2] 6 8)).
Proof. vm_compute. reflexivity. Qed.

(** ** The digit mapper *)

Lemma len_app {A} (l1 l2 : list A) : Py.len (l1 ++ l2) = Py.len l1 + Py.len l2.
Proof. unfold Py.len. rewrite length_app. lia. Qed.

Lemma len_nonneg {A} (l : list A) : 0 ≤ Py.len l.
Proof. unfold Py.len. lia. Qed.

Lemma index_lookup {A} (l : list A) (i : nat) :
  Py.index l (Z.of_nat i) = l !! i.
Proof.
  unfold Py.index. rewrite bool_decide_true by lia. by rewrite Nat2Z.id.
Qed.

(** [mask >> i & 1] is truthy exactly when bit [i] of [mask] is set. *)
Lemma shift_and_testbit mask i :
  0 ≤ i → Z.land (mask ≫ i) 1 ≠ 0 ↔ Z.testbit mask i = true.
Proof.
  intros Hi. change 1 with (Z.ones 1) at 1.
  rewrite Z.land_ones by lia. change (2 ^ 1) with 2.
  rewrite Zmod_odd, <- Z.bit0_odd, Z.shiftr_spec by lia.
  rewrite Z.add_0_l. by destruct (Z.testbit mask i).
Qed.

(** Inside [mask_sum] the lookup [group[i]] is always in bounds. *)
Lemma mask_sum_index_in_bounds (group : list Z) i :
  i ∈ Py.range (Py.len group) →
  Py.index group i = Some (group !!! Z.to_nat i).
Proof.
  unfold Py.range, Py.len. intros [H0 Hn]%elem_of_seqZ.
  unfold Py.index. rewrite bool_decide_true by lia.
  destruct (lookup_lt_is_Some_2 group (Z.to_nat i)) as [x Hx]; [lia|].
  rewrite Hx. f_equal. symmetry. by apply list_lookup_total_correct.
Qed.

Lemma mask_sum_selected_from (pre group : list Z) mask :
  Py.sum ((λ i, (pre ++ group) !!! Z.to_nat i)
            <$> filter (λ i, Z.land (mask ≫ i) 1 ≠ 0)
                  (seqZ (Py.len pre) (Py.len group)))
  = Py.sum (selected_from (Py.len pre) group mask).
Proof.
  revert pre. induction group as [|x group IH]; intros pre; [done|].
  pose proof (len_nonneg pre). pose proof (len_nonneg group).
  rewrite seqZ_cons by (unfold Py.len in *; simpl; lia).
  replace (Z.pred (Py.len (x :: group))) with (Py.len group)
    by (unfold Py.len; simpl; lia).
  replace (Z.succ (Py.len pre)) with (Py.len (pre ++ [x]))
    by (rewrite len_app; unfold Py.len; simpl; lia).
  simpl. rewrite sum_app, filter_cons.
  replace (Py.len pre + 1) with (Py.len (pre ++ [x]))
    by (rewrite len_app; unfold Py.len; simpl; lia).
  rewrite <- IH. rewrite <- (app_assoc pre [x] group). simpl.
  destruct (decide _) as [Hb|Hb]; rewrite shift_and_testbit in Hb by done.
  - rewrite Hb. simpl. rewrite Z.add_0_r. f_equal.
    unfold Py.len. rewrite Nat2Z.id.
    apply list_lookup_total_correct. by apply list_lookup_middle.
  - apply not_true_is_false in Hb. rewrite Hb. simpl. lia.
Qed.

Lemma mask_sum_selected group mask :
  mask_sum group (Py.len group) mask = Py.sum (selected group mask).
Proof. apply (mask_sum_selected_from [] group mask). Qed.

Lemma selected_from_nonneg i group mask :
  Forall (λ x, 0 < x) group → 0 ≤ Py.sum (selected_from i group mask).
Proof.
  intros Hpos. revert i. induction Hpos as [|x group Hx _ IH]; intros i; simpl; [done|].
  rewrite sum_app. specialize (IH (i + 1)).
  destruct (Z.testbit mask i); simpl; lia.
Qed.

Lemma selected_from_zero i group : selected_from i group 0 = [].
Proof.
  revert i. induction group as [|x group IH]; intros i; simpl; [done|].
  by rewrite Z.bits_0, IH.
Qed.

Lemma build_digit_map_Permutation group :
  build_digit_map group
  ≡ₚ (λ mask, (Py.sum (selected group mask), mask)) <$> Py.range (2 ^ Py.len group).
Proof.
  unfold build_digit_map. rewrite (sorted_Permutation tuple_le).
  erewrite list_fmap_ext; [done|]. intros _ mask _. simpl.
  by rewrite mask_sum_selected.
Qed.

Lemma build_digit_map_len group :
  Py.len (build_digit_map group) = 2 ^ Py.len group.
Proof.
  unfold Py.len at 1. rewrite (build_digit_map_Permutation group).
  unfold Py.range. rewrite length_fmap, length_seqZ.
  pose proof (len_nonneg group). lia.
Qed.

Lemma build_digit_map_elem_of group s mask :
  (s, mask) ∈ build_digit_map group ↔
  0 ≤ mask < 2 ^ Py.len group ∧ s = Py.sum (selected group mask).
Proof.
  rewrite (build_digit_map_Permutation group), list_elem_of_fmap.
  unfold Py.range. setoid_rewrite elem_of_seqZ. split.
  - intros (m & [= -> ->] & Hm). split; [lia|done].
  - intros [Hm ->]. exists mask. split; [done|lia].
Qed.

Lemma build_digit_map_masks group :
  (build_digit_map group).*2 ≡ₚ Py.range (2 ^ Py.len group).
Proof.
  rewrite (build_digit_map_Permutation group), <- list_fmap_compose.
  by rewrite list_fmap_id.
Qed.

Lemma StronglySorted_tuple_lt (l : list (Z * Z)) :
  StronglySorted tuple_le l → NoDup (l.*2) → StronglySorted tuple_lt l.
Proof.
  induction 1 as [|p l Hs IH Hp]; intros Hnd; constructor.
  - apply IH. by apply NoDup_cons_1_2 in Hnd.
  - apply NoDup_cons_1_1 in Hnd. rewrite Forall_forall in Hp |- *.
    intros q Hq. specialize (Hp q Hq). unfold tuple_le, tuple_lt in *.
    assert (p.2 ≠ q.2).
    { intros Heq. apply Hnd. rewrite Heq. by apply list_elem_of_fmap_2. }
    lia.
Qed.

Lemma build_digit_map_sorted group : StronglySorted tuple_lt (build_digit_map group).
Proof.
  apply StronglySorted_tuple_lt.
  - apply (sorted_StronglySorted tuple_le).
  - rewrite build_digit_map_masks. apply NoDup_seqZ.
Qed.

Lemma build_digit_map_head group :
  Forall (λ x, 0 < x) group → build_digit_map group !! 0%nat = Some (0, 0).
Proof.
  intros Hpos.
  assert ((0, 0) ∈ build_digit_map group) as Hin.
  { apply build_digit_map_elem_of. unfold selected.
    rewrite selected_from_zero. pose proof (len_nonneg group). split; [|done].
    split; [done|]. by apply Z.pow_pos_nonneg. }
  pose proof (sorted_StronglySorted tuple_le
    ((λ mask, (mask_sum group (Py.len group) mask, mask))
       <$> Py.range (2 ^ Py.len group))) as Hs.
  fold (build_digit_map group) in Hs.
  destruct (build_digit_map group) as [|[s m] dm] eqn:E; [by apply elem_of_nil in Hin|].
  assert ((s, m) ∈ build_digit_map group) as Hsm by (rewrite E; apply list_elem_of_here).
  apply build_digit_map_elem_of in Hsm as [Hm Hsum].
  pose proof (selected_from_nonneg 0 group m Hpos) as Hge. fold (selected group m) in Hge.
  apply StronglySorted_inv in Hs as [_ Hhd]. rewrite Forall_forall in Hhd.
  simpl. f_equal.
  apply elem_of_cons in Hin as [Heq|Hin]; [done|].
  specialize (Hhd _ Hin). unfold tuple_le in Hhd. simpl in Hhd.
  f_equal; lia.
Qed.

(** C6: for a group of [n] positive integers, [build_digit_map] returns
    [2^n] entries; every entry is a pair [(s, mask)] with [mask] in
    [0 .. 2^n - 1] and [s] the sum of the group's values at the positions
    whose bit is set in [mask]; every bitmask occurs exactly once; the
    entries ascend by sum, ties broken by ascending bitmask; and entry 0 is
    [(0, 0)]. *)
Theorem build_digit_map_spec (group : list Z) :
  Forall (λ x, 0 < x) group →
  Py.len (build_digit_map group) = 2 ^ Py.len group ∧
  (∀ d s mask, build_digit_map group !! d = Some (s, mask) →
     0 ≤ mask < 2 ^ Py.len group ∧ s = Py.sum (selected group mask)) ∧
  (build_digit_map group).*2 ≡ₚ Py.range (2 ^ Py.len group) ∧
  StronglySorted tuple_lt (build_digit_map group) ∧
  build_digit_map group !! 0%nat = Some (0, 0).
Proof.
  intros Hpos. split_and!.
  - apply build_digit_map_len.
  - intros d s mask Hd. apply build_digit_map_elem_of.
    by eapply list_elem_of_lookup_2.
  - apply build_digit_map_masks.
  - apply build_digit_map_sorted.
  - by apply build_digit_map_head.
Qed.

Lemma build_digit_map_spec_witness :
  Forall (λ x, 0 < x) [1; 1; 2] ∧
  Py.len (build_digit_map [1; 1; 2]) = 2 ^ Py.len [1; 1; 2] ∧
  (∀ d s mask, build_digit_map [1; 1; 2] !! d = Some (s, mask) →
     0 ≤ mask < 2 ^ Py.len [1; 1; 2] ∧ s = Py.sum (selected [1; 1; 2] mask)) ∧
  (build_digit_map [1; 1; 2]).*2 ≡ₚ Py.range (2 ^ Py.len [1; 1; 2]) ∧
  StronglySorted tuple_lt (build_digit_map [1; 1; 2]) ∧
  build_digit_map [1; 1; 2] !! 0%nat = Some (0, 0).
Proof.
  assert (Forall (λ x, 0 < x) [1; 1; 2]) as Hpos by (repeat constructor).
  split; [exact Hpos|]. apply (build_digit_map_spec [1; 1; 2] Hpos).
Defined.

(** ** The verifier *)

Lemma num_tuples_snoc rs r : num_tuples (rs ++ [r]) = num_tuples rs * r.
Proof. induction rs as [|a rs IH]; simpl; [lia|]. rewrite IH. lia. Qed.

Lemma num_tuples_pos rs : Forall (λ r, 0 < r) rs → 0 < num_tuples rs.
Proof. induction 1 as [|r rs Hr _ IH]; simpl; lia. Qed.

Lemma radix_of_pos g : 0 < radix_of g.
Proof. apply Z.pow_pos_nonneg; [done|apply len_nonneg]. Qed.

Lemma radices_pos (partition : list (list Z)) :
  Forall (λ r, 0 < r) (radix_of <$> partition).
Proof. apply Forall_fmap, Forall_true. intros g. apply radix_of_pos. Qed.

Lemma mixed_radix_length rs i : length (mixed_radix rs i) = length rs.
Proof. revert i. induction rs as [|r rs IH]; intros i; simpl; [done|]. by rewrite IH. Qed.

(** Every digit is below its radix. *)
Lemma mixed_radix_lookup rs i g r :
  Forall (λ r, 0 < r) rs → rs !! g = Some r →
  ∃ d, mixed_radix rs i !! g = Some d ∧ 0 ≤ d < r.
Proof.
  intros Hpos. revert i g. induction Hpos as [|a rs Ha _ IH]; intros i g Hg; [done|].
  destruct g as [|g]; simpl in *.
  - simplify_eq. eexists. split; [done|]. by apply Z.mod_pos_bound.
  - by apply IH.
Qed.

(** [mixed_radix] inverts [radix_value]: position [i] holds the digits of
    the number [i]. *)
Lemma radix_value_mixed_radix rs i :
  Forall (λ r, 0 < r) rs → 0 ≤ i < num_tuples rs →
  radix_value rs (mixed_radix rs i) = i.
Proof.
  intros Hpos. revert i. induction Hpos as [|r rs Hr _ IH]; intros i Hi; simpl in *.
  - lia.
  - rewrite IH.
    + pose proof (Z.div_mod i r). lia.
    + split; [apply Z.div_pos; lia|]. apply Z.div_lt_upper_bound; lia.
Qed.

Lemma mixed_radix_snoc rs r x i :
  Forall (λ r, 0 < r) rs → 0 ≤ i < num_tuples rs → 0 ≤ x < r →
  mixed_radix (rs ++ [r]) (x * num_tuples rs + i) = mixed_radix rs i ++ [x].
Proof.
  intros Hpos. revert i. induction Hpos as [|a rs Ha _ IH]; intros i Hi Hx; simpl in *.
  - assert (i = 0) as -> by lia. rewrite Z.mul_1_r, Z.add_0_r.
    by rewrite Z.mod_small.
  - replace (x * (a * num_tuples rs) + i) with (i + (x * num_tuples rs) * a) by lia.
    rewrite Z.mod_add, Z.div_add by lia. f_equal.
    rewrite Z.add_comm. apply IH; [|done].
    split; [apply Z.div_pos; lia|]. apply Z.div_lt_upper_bound; lia.
Qed.

Lemma elem_of_range x n : x ∈ Py.range n ↔ 0 ≤ x < n.
Proof. unfold Py.range. rewrite elem_of_seqZ. lia. Qed.

Lemma range_mul r n :
  0 ≤ r → 0 ≤ n →
  Py.range (r * n) = x ← Py.range r; (λ i, x * n + i) <$> Py.range n.
Proof.
  unfold Py.range. intros Hr Hn. revert r Hr. apply natlike_ind.
  - done.
  - intros r Hr IH.
    replace (Z.succ r * n) with (r * n + n) by lia.
    rewrite seqZ_app by lia. rewrite IH.
    replace (Z.succ r) with (r + 1) by lia.
    rewrite (seqZ_app 0 r 1) by lia.
    rewrite bind_app. f_equal.
    rewrite (seqZ_cons _ 1), (seqZ_nil _ (Z.pred 1)) by lia. rewrite !Z.add_0_l.
    cbn [mbind list_bind]. rewrite app_nil_r.
    by rewrite fmap_add_seqZ, Z.add_0_r.
Qed.

Lemma list_bind_ext_elem_of {A B} (f g : A → list B) (l : list A) :
  (∀ x, x ∈ l → f x = g x) → l ≫= f = l ≫= g.
Proof.
  induction l as [|x l IH]; intros Hfg; simpl; [done|].
  rewrite Hfg by apply list_elem_of_here. f_equal.
  apply IH. intros y Hy. by apply Hfg, list_elem_of_further.
Qed.

Lemma list_fmap_of_bind {A B C} (f : B → C) (g : A → list B) (l : list A) :
  f <$> (l ≫= g) = l ≫= λ x, f <$> g x.
Proof.
  induction l as [|x l IH]; [done|].
  cbn [mbind list_bind]. by rewrite fmap_app, <- IH.
Qed.

Lemma list_fmap_ext_elem_of {A B} (f g : A → B) (l : list A) :
  (∀ x, x ∈ l → f x = g x) → f <$> l = g <$> l.
Proof.
  intros Hfg. apply list_fmap_ext. intros i x Hx.
  by eapply Hfg, list_elem_of_lookup_2.
Qed.

(** The enumeration order: after the reversal that aligns a tuple with the
    partition, position [i] of the product over the reversed radices holds
    the mixed-radix digits of [i]. *)
Lemma product_mixed_radix ms :
  Forall (λ r, 0 < r) ms →
  reverse <$> Py.product (Py.range <$> ms)
  = mixed_radix (reverse ms) <$> Py.range (num_tuples (reverse ms)).
Proof.
  induction 1 as [|r ms Hr Hpos IH]; [done|].
  assert (Forall (λ r, 0 < r) (reverse ms)) as Hrev by by apply Forall_reverse.
  pose proof (num_tuples_pos _ Hrev) as HN.
  cbn [fmap list_fmap Py.product].
  change (list_fmap Z (list Z) Py.range ms) with (Py.range <$> ms).
  rewrite reverse_cons, num_tuples_snoc.
  rewrite (Z.mul_comm _ r), range_mul by lia.
  rewrite !list_fmap_of_bind. apply list_bind_ext_elem_of.
  intros x [Hx0 Hxr]%elem_of_range.
  rewrite <- !list_fmap_compose.
  transitivity ((λ t, reverse t ++ [x]) <$> Py.product (Py.range <$> ms)).
  { apply list_fmap_ext. intros _ t _. simpl. by rewrite reverse_cons. }
  change (λ t, reverse t ++ [x]) with ((λ t : list Z, t ++ [x]) ∘ reverse).
  rewrite list_fmap_compose, IH.
  rewrite <- list_fmap_compose. apply list_fmap_ext_elem_of.
  intros i [Hi0 HiN]%elem_of_range. simpl.
  symmetry. apply mixed_radix_snoc; [done|lia..].
Qed.

Lemma index_nonneg {A} (l : list A) (i : Z) :
  0 ≤ i → Py.index l i = l !! Z.to_nat i.
Proof. intros Hi. unfold Py.index. by rewrite bool_decide_true. Qed.

(** With a matching radix vector the pools are built without an
    [IndexError], from the first [len(partition)] radices only. *)
Lemma digit_tuples_match partition radices :
  radices_match partition radices →
  digit_tuples radices (Py.len partition)
  = Some (Py.product (Py.range <$> reverse (radix_of <$> partition))).
Proof.
  intros Hm. unfold digit_tuples.
  rewrite (mapM_Some_2 _ _ (Py.range <$> reverse (radix_of <$> partition))); [done|].
  unfold Py.range_down. rewrite fmap_reverse. apply Forall2_reverse.
  apply Forall2_same_length_lookup_2.
  { unfold Py.len. by rewrite length_seqZ, Nat2Z.id, !length_fmap. }
  intros i j pool [-> Hi]%lookup_seqZ Hpool.
  rewrite !list_lookup_fmap in Hpool.
  destruct (partition !! i) as [g|] eqn:Hg; [|done]. simpl in Hpool. simplify_eq.
  rewrite Z.add_0_l, index_lookup. by rewrite (Hm i g Hg).
Qed.

(** Every lookup made while summing a digit tuple of the enumeration is in
    bounds. *)
Lemma digit_lookups_in_bounds partition i g :
  0 ≤ g < Py.len partition →
  ∃ group d e,
    partition !! Z.to_nat g = Some group ∧
    Py.index (build_digit_map <$> partition) g = Some (build_digit_map group) ∧
    Py.index (digits_at partition i) g = Some d ∧
    0 ≤ d < Py.len (build_digit_map group) ∧
    Py.index (build_digit_map group) d = Some e.
Proof.
  intros [Hg0 Hgk]. unfold Py.len in Hgk.
  destruct (lookup_lt_is_Some_2 partition (Z.to_nat g)) as [group Hgroup]; [lia|].
  destruct (mixed_radix_lookup (radix_of <$> partition) i (Z.to_nat g) (radix_of group))
    as (d & Hd & Hdr).
  { apply radices_pos. }
  { by rewrite list_lookup_fmap, Hgroup. }
  fold (digits_at partition i) in Hd.
  pose proof (build_digit_map_len group) as Hlen. fold (radix_of group) in Hlen.
  destruct (lookup_lt_is_Some_2 (build_digit_map group) (Z.to_nat d)) as [e He].
  { unfold Py.len in Hlen. lia. }
  exists group, d, e. rewrite !index_nonneg by lia.
  rewrite list_lookup_fmap, Hgroup. split_and!; try done; lia.
Qed.

Lemma digits_total_defined partition i :
  digits_total (build_digit_map <$> partition) (Py.len partition)
    (digits_at partition i) = Some (total_at partition i).
Proof.
  unfold total_at.
  destruct (digits_total _ _ _) as [t|] eqn:E; [done|]. exfalso.
  apply (is_Some_None (A:=Z)). rewrite <- E. unfold digits_total.
  apply fmap_is_Some, mapM_is_Some_2, Forall_forall.
  intros g Hg%elem_of_range.
  destruct (digit_lookups_in_bounds partition i g Hg)
    as (group & d & e & _ & Hdm & Hd & _ & He).
  simpl. rewrite Hdm. simpl. rewrite Hd. simpl. rewrite He. by eexists.
Qed.

(** The loop of [verify] from position [a] on, over [n] tuples, the
    previous subset sum being that of position [a - 1]: it stops at the
    first position whose sum is below the sum before it. *)
Lemma verify_loop_spec dm k (D : Z → list Z) (T : Z → Z) tuples a n :
  0 ≤ n →
  reverse <$> tuples = D <$> seqZ a n →
  (∀ i, a ≤ i < a + n → digits_total dm k (D i) = Some (T i)) →
  let result := verify_loop dm k a (Some (T (a - 1))) tuples in
  (∀ d, result = Some (false, Some d) ↔
     ∃ i, a ≤ i < a + n ∧ T i < T (i - 1) ∧
       (∀ j, a ≤ j < i → T (j - 1) ≤ T j) ∧
       d = Diagnostic i (D i) (T i) (T (i - 1)))
  ∧ (result = Some (true, None) ↔ ∀ j, a ≤ j < a + n → T (j - 1) ≤ T j)
  ∧ (result = Some (true, None) ∨ ∃ d, result = Some (false, Some d)).
Proof.
  revert a n. induction tuples as [|t tuples IH]; intros a n Hn Htup Htot; simpl.
  - assert (n = 0) as ->.
    { apply (f_equal length) in Htup. rewrite !length_fmap, length_seqZ in Htup.
      simpl in Htup. lia. }
    split_and!.
    + intros d. split; [done|]. intros (i & ? & _). lia.
    + split; [|done]. intros _ j ?. lia.
    + by left.
  - assert (0 < n) as Hpos.
    { apply (f_equal length) in Htup. rewrite !length_fmap, length_seqZ in Htup.
      simpl in Htup. lia. }
    rewrite seqZ_cons in Htup by done. simpl in Htup.
    injection Htup as Ht Htup. rewrite Ht, Htot by lia. simpl.
    case_bool_decide as Hlt.
    + split_and!.
      * intros d. split.
        -- intros [= <-]. exists a. split_and!; [lia|lia|done| |done].
           intros j ?. lia.
        -- intros (i & Hi & Hv & Hmono & ->).
           destruct (decide (i = a)) as [->|Hne]; [done|].
           specialize (Hmono a). lia.
      * split; [done|]. intros Hmono. specialize (Hmono a). lia.
      * right. by eexists.
    + specialize (IH (Z.succ a) (Z.pred n)).
      replace (Z.succ a - 1) with a in IH by lia.
      replace (a + 1) with (Z.succ a) by lia.
      destruct IH as (IHf & IHt & IHc); [lia|done|intros i ?; apply Htot; lia|].
      split_and!.
      * intros d. rewrite IHf. split.
        -- intros (i & Hi & Hv & Hmono & ->). exists i. split_and!; [lia|lia|done| |done].
           intros j Hj. destruct (decide (j = a)) as [->|Hne]; [lia|].
           apply Hmono. lia.
        -- intros (i & Hi & Hv & Hmono & ->).
           destruct (decide (i = a)) as [->|Hne]; [lia|].
           exists i. split_and!; [lia|lia|done| |done].
           intros j Hj. apply Hmono. lia.
      * rewrite IHt. split.
        -- intros Hmono j Hj. destruct (decide (j = a)) as [->|Hne]; [lia|].
           apply Hmono. lia.
        -- intros Hmono j Hj. apply Hmono. lia.
      * done.
Qed.

(** The tuples [verify] enumerates, aligned with the partition. *)
Lemma digit_tuples_enumeration partition radices :
  radices_match partition radices →
  ∃ tuples,
    digit_tuples radices (Py.len partition) = Some tuples ∧
    reverse <$> tuples
    = digits_at partition <$> Py.range (num_tuples (radix_of <$> partition)).
Proof.
  intros Hm. eexists. split; [by apply digit_tuples_match|].
  rewrite product_mixed_radix by (apply Forall_reverse, radices_pos).
  by rewrite reverse_involutive.
Qed.

Lemma verify_match partition radices :
  radices_match partition radices →
  let N := num_tuples (radix_of <$> partition) in
  let D := digits_at partition in
  let T := total_at partition in
  (∀ d, verify partition radices = Some (false, Some d) ↔
     ∃ i, 1 ≤ i < N ∧ T i < T (i - 1) ∧
       (∀ j, 1 ≤ j < i → T (j - 1) ≤ T j) ∧
       d = Diagnostic i (D i) (T i) (T (i - 1)))
  ∧ (verify partition radices = Some (true, None) ↔
     ∀ j, 1 ≤ j < N → T (j - 1) ≤ T j)
  ∧ (verify partition radices = Some (true, None)
     ∨ ∃ d, verify partition radices = Some (false, Some d)).
Proof.
  intros Hm N D T. unfold verify. case_bool_decide as Hk.
  - assert (partition = []) as Hnil.
    { unfold Py.len in Hk. destruct partition; [done|simpl in Hk; lia]. }
    assert (N = 1) as HN by (unfold N; by rewrite Hnil).
    split_and!.
    + intros d. split; [done|]. intros (i & ? & _). lia.
    + split; [|done]. intros _ j ?. lia.
    + by left.
  - destruct (digit_tuples_enumeration partition radices Hm) as (tuples & -> & Htup).
    fold N D in Htup. simpl.
    assert (0 < N) as HN by (apply num_tuples_pos, radices_pos).
    unfold Py.range in Htup. rewrite seqZ_cons in Htup by done.
    destruct tuples as [|t tuples]; [done|].
    simpl in Htup. injection Htup as Ht Htup.
    assert (digits_total (build_digit_map <$> partition) (Py.len partition) (D 0)
            = Some (T 0)) as Htot0 by apply digits_total_defined.
    simpl. rewrite Ht, Htot0. simpl.
    destruct (verify_loop_spec (build_digit_map <$> partition) (Py.len partition)
                D T tuples 1 (Z.pred N)) as (Hf & Ht' & Hc); [lia|done| |].
    { intros i _. apply digits_total_defined. }
    change (1 - 1) with 0 in *. change (0 + 1) with 1.
    split_and!.
    + intros d. rewrite Hf.
      split; intros (i & Hi & Hv & Hmono & ->); exists i;
        (split_and!; [lia|lia|done| |done]); intros j Hj; apply Hmono; lia.
    + rewrite Ht'. split; intros Hmono j Hj; apply Hmono; lia.
    + done.
Qed.

(** C10: when [radices[i] = 2^len(partition[i])] at every position of the
    partition, [verify] raises no [IndexError]: the pools are built; for
    every enumerated tuple and every group [g], the digit [digits[g]] is a
    valid index into [digit_maps[g]], which has [2^len(partition[g])]
    entries; and [verify] returns a pair, either [(True, None)] or
    [(False, diagnostic)]. *)
Theorem verify_total (partition : list (list Z)) (radices : list Z) :
  radices_match partition radices →
  (∃ tuples,
     digit_tuples radices (Py.len partition) = Some tuples ∧
     ∀ t g, t ∈ tuples → 0 ≤ g < Py.len partition →
       ∃ group d e,
         partition !! Z.to_nat g = Some group ∧
         Py.index (build_digit_map <$> partition) g = Some (build_digit_map group) ∧
         Py.len (build_digit_map group) = 2 ^ Py.len group ∧
         Py.index (reverse t) g = Some d ∧
         0 ≤ d < Py.len (build_digit_map group) ∧
         Py.index (build_digit_map group) d = Some e)
  ∧ (verify partition radices = Some (true, None)
     ∨ ∃ d, verify partition radices = Some (false, Some d)).
Proof.
  intros Hm. split; [|by apply verify_match].
  destruct (digit_tuples_enumeration partition radices Hm) as (tuples & Hdt & Htup).
  exists tuples. split; [done|]. intros t g Ht Hg.
  assert (reverse t ∈ reverse <$> tuples) as Hrt by by apply list_elem_of_fmap_2.
  rewrite Htup in Hrt. apply list_elem_of_fmap in Hrt as (i & -> & _).
  destruct (digit_lookups_in_bounds partition i g Hg)
    as (group & d & e & Hgroup & Hdm & Hd & Hdr & He).
  exists group, d, e. pose proof (build_digit_map_len group).
  split_and!; try done; lia.
Qed.

Lemma verify_total_witness :
  radices_match [[1]; [2]; [5; 6]; [20]] [2; 2; 4; 2] ∧
  let partition := [[1]; [2]; [5; 6]; [20]] in
  let radices := [2; 2; 4; 2] in
  (∃ tuples,
     digit_tuples radices (Py.len partition) = Some tuples ∧
     ∀ t g, t ∈ tuples → 0 ≤ g < Py.len partition →
       ∃ group d e,
         partition !! Z.to_nat g = Some group ∧
         Py.index (build_digit_map <$> partition) g = Some (build_digit_map group) ∧
         Py.len (build_digit_map group) = 2 ^ Py.len group ∧
         Py.index (reverse t) g = Some d ∧
         0 ≤ d < Py.len (build_digit_map group) ∧
         Py.index (build_digit_map group) d = Some e)
  ∧ (verify partition radices = Some (true, None)
     ∨ ∃ d, verify partition radices = Some (false, Some d)).
Proof.
  assert (radices_match [[1]; [2]; [5; 6]; [20]] [2; 2; 4; 2]) as Hm.
  { intros i g Hg.
    destruct i as [|[|[|[|i]]]]; simpl in Hg; simplify_eq; reflexivity. }
  split; [exact Hm|].
  exact (verify_total [[1]; [2]; [5; 6]; [20]] [2; 2; 4; 2] Hm).
Defined.

(** * Further properties of the code *)

(** ** The shape of the partition *)

Lemma concat_length_nonempty {A} (gs : list (list A)) :
  Forall (λ g, g ≠ []) gs → (length gs ≤ length (concat gs))%nat.
Proof.
  induction 1 as [|g gs Hg _ IH]; simpl; [done|].
  rewrite length_app. destruct g; [done|]. simpl. lia.
Qed.

Lemma StronglySorted_concat {A} (R : relation A) (gs : list (list A)) :
  StronglySorted R (concat gs) → Forall (StronglySorted R) gs.
Proof.
  induction gs as [|g gs IH]; simpl; [done|].
  intros (_ & Hg & Hgs)%StronglySorted_app. constructor; auto.
Qed.

Lemma elem_of_concat {A} (x : A) (gs : list (list A)) :
  x ∈ concat gs ↔ ∃ g, g ∈ gs ∧ x ∈ g.
Proof.
  induction gs as [|g gs IH]; simpl.
  - split; [by intros ?%elem_of_nil|]. by intros (g & ?%elem_of_nil & _).
  - rewrite elem_of_app, IH. split.
    + intros [Hx|(g' & Hg' & Hx)].
      * exists g. split; [apply list_elem_of_here|done].
      * exists g'. split; [by apply list_elem_of_further|done].
    + intros (g' & [->|Hg']%elem_of_cons & Hx); [by left|].
      right. by exists g'.
Qed.

Lemma radix_of_nonempty g : g ≠ [] → 2 ≤ radix_of g.
Proof.
  intros Hg. unfold radix_of, Py.len.
  destruct g as [|x g]; [done|]. simpl length.
  change 2 with (2 ^ 1) at 1. apply Z.pow_le_mono_r; lia.
Qed.

(** The partition has no empty group, is empty only for the empty input,
    has at most as many groups as the input has elements, every group is
    ascending, and every radix is at least 2. *)
Theorem subset_sum_ordering_groups_nonempty (nums : list Z) :
  let '(partition, radices) := subset_sum_ordering nums in
  Forall (λ g, g ≠ []) partition ∧
  (partition = [] ↔ nums = []) ∧
  (length partition ≤ length nums)%nat ∧
  Forall (StronglySorted Z.le) partition ∧
  Forall (λ r, 2 ≤ r) radices.
Proof.
  pose proof (subset_sum_ordering_concat nums) as Hc.
  pose proof (subset_sum_ordering_radices nums) as Hr.
  destruct (subset_sum_ordering_dominated nums) as [_ Hne].
  destruct (subset_sum_ordering nums) as [partition radices] eqn:E.
  simpl in *. subst radices. split_and!.
  - done.
  - split.
    + intros ->. simpl in Hc. apply Permutation_nil_r.
      rewrite Hc. by rewrite (sorted_Permutation Z.le).
    + intros ->. by injection E as <- _.
  - etrans; [by apply concat_length_nonempty|].
    rewrite Hc. by rewrite (sorted_Permutation Z.le).
  - apply StronglySorted_concat. rewrite Hc. apply (sorted_StronglySorted Z.le).
  - apply Forall_fmap. eapply Forall_impl; [done|].
    intros g Hg. by apply radix_of_nonempty.
Qed.

(** ** The greedy cut is exact *)

Lemma all_tight_snoc gs g :
  all_tight gs → tight (Py.sum (concat gs)) g → all_tight (gs ++ [g]).
Proof.
  intros Hgs Hg j g' Hj.
  destruct (decide (j < length gs)%nat) as [Hlt|Hge].
  - rewrite lookup_app_l in Hj by done.
    rewrite take_app_le by lia. by apply Hgs.
  - rewrite lookup_app_r in Hj by lia.
    destruct (j - length gs)%nat as [|n] eqn:En; simpl in Hj; [|done].
    simplify_eq. assert (j = length gs) as -> by lia.
    by rewrite take_app_length.
Qed.

Lemma tight_singleton acc x : tight acc [x].
Proof.
  intros g1 y g2 Heq Hg1. destruct g1 as [|z g1]; [done|].
  injection Heq as _ Heq. by destruct g1.
Qed.

Lemma tight_snoc acc g x :
  tight acc g → (g ≠ [] → x ≤ acc + Py.sum g) → tight acc (g ++ [x]).
Proof.
  intros Hg Hx g1 y g2 Heq Hg1.
  destruct g2 as [|z g2 _] using rev_ind.
  - apply app_inj_tail in Heq as [-> ->]. by apply Hx.
  - rewrite app_comm_cons, app_assoc in Heq.
    apply app_inj_tail in Heq as [-> _]. by eapply Hg.
Qed.

Lemma loop_body_tight st num l :
  loop_inv st (num :: l) →
  all_tight (groups st) →
  tight (Py.sum (concat (groups st))) (current_group st) →
  all_tight (groups (loop_body st num))
  ∧ tight (Py.sum (concat (groups (loop_body st num))))
      (current_group (loop_body st num)).
Proof.
  intros Hinv Hgs Hcur. pose proof (inv_prefix_sum _ _ Hinv) as Hps.
  unfold loop_body. case_bool_decide as Hcut; simpl.
  - split; [by apply all_tight_snoc|]. apply (tight_singleton _ num).
  - split; [done|]. apply tight_snoc; [done|].
    intros Hne. apply not_and_l in Hcut as [Hcut|Hcut]; [done|]. lia.
Qed.

Lemma foldl_loop_body_tight l st :
  loop_inv st l →
  all_tight (groups st) →
  tight (Py.sum (concat (groups st))) (current_group st) →
  all_tight (groups (foldl loop_body st l) ++ [current_group (foldl loop_body st l)]).
Proof.
  revert st. induction l as [|num l IH]; intros st Hinv Hgs Hcur; simpl.
  - by apply all_tight_snoc.
  - destruct (loop_body_tight st num l Hinv Hgs Hcur) as [Hgs' Hcur'].
    apply IH; [by apply loop_body_inv|done..].
Qed.

Lemma subset_sum_ordering_all_tight nums : all_tight (subset_sum_ordering nums).1.
Proof.
  unfold subset_sum_ordering. case_bool_decide as Hn; simpl.
  - by intros j g Hj.
  - apply foldl_loop_body_tight.
    + apply loop_inv_init, (sorted_StronglySorted Z.le).
    + by intros j g Hj.
    + intros g1 x g2 Heq. by destruct g1.
Qed.

(** Groups are maximal: inside a group of the returned partition, no
    element after the first is strictly greater than the sum of all
    elements that precede it in the sorted input (the earlier groups and
    the earlier elements of its own group).  With the domination of the
    first element of each later group, a cut is made exactly where the
    prefix sum is strictly below the next element. *)
Theorem subset_sum_ordering_groups_maximal (nums : list Z) (j : nat)
    (g g1 g2 : list Z) (x : Z) :
  (subset_sum_ordering nums).1 !! j = Some g →
  g = g1 ++ x :: g2 →
  g1 ≠ [] →
  x ≤ Py.sum (concat (take j (subset_sum_ordering nums).1)) + Py.sum g1.
Proof.
  intros Hj Hg Hg1. by eapply (subset_sum_ordering_all_tight nums).
Qed.

Lemma subset_sum_ordering_groups_maximal_witness :
  (subset_sum_ordering [1; 20; 5; 6; 2]).1 !! 2%nat = Some [5; 6] ∧
  [5; 6] = [5] ++ 6 :: [] ∧
  [5] ≠ [] ∧
  6 ≤ Py.sum (concat (take 2 (subset_sum_ordering [1; 20; 5; 6; 2]).1)) + Py.sum [5].
Proof.
  assert ((subset_sum_ordering [1; 20; 5; 6; 2]).1 !! 2%nat = Some [5; 6]) as H1
    by (vm_compute; reflexivity).
  assert ([5; 6] = [5] ++ 6 :: []) as H2 by reflexivity.
  assert ([5] ≠ ([] : list Z)) as H3 by discriminate.
  split_and!; [done..|].
  exact (subset_sum_ordering_groups_maximal [1; 20; 5; 6; 2] 2 [5; 6] [5] [] 6 H1 H2 H3).
Defined.

(** ** Groups of positive inputs are strictly ordered *)

Lemma sum_nonneg l : Forall (λ x, 0 < x) l → 0 ≤ Py.sum l.
Proof. induction 1 as [|x l Hx _ IH]; simpl; lia. Qed.

Lemma sum_elem_of_le l x : Forall (λ x, 0 < x) l → x ∈ l → x ≤ Py.sum l.
Proof.
  induction 1 as [|y l Hy Hl IH]; [by intros ?%elem_of_nil|].
  pose proof (sum_nonneg l Hl).
  intros [->|Hx]%elem_of_cons; simpl; [lia|]. specialize (IH Hx). lia.
Qed.

Lemma subset_sum_ordering_elem_of nums g x :
  g ∈ (subset_sum_ordering nums).1 → x ∈ g → x ∈ nums.
Proof.
  intros Hg Hx. rewrite <- (sorted_Permutation Z.le nums).
  rewrite <- subset_sum_ordering_concat. apply elem_of_concat. eauto.
Qed.

Lemma groups_strictly_ordered nums i j gi gj x y :
  Forall (λ x, 0 < x) nums →
  (i < j)%nat →
  (subset_sum_ordering nums).1 !! i = Some gi →
  (subset_sum_ordering nums).1 !! j = Some gj →
  x ∈ gi → y ∈ gj → x < y.
Proof.
  intros Hpos Hij Hi Hj Hx Hy.
  destruct (subset_sum_ordering_dominated nums) as [Hd _].
  assert (Py.sum (concat (take j (subset_sum_ordering nums).1)) < y) as Hlt
    by (eapply Hd; [lia|done..]).
  assert (x ≤ Py.sum (concat (take j (subset_sum_ordering nums).1))); [|lia].
  apply sum_elem_of_le.
  - apply Forall_forall. intros z (g & Hg & Hz)%elem_of_concat.
    rewrite Forall_forall in Hpos. apply Hpos.
    apply (subset_sum_ordering_elem_of nums g); [|done].
    apply list_elem_of_lookup in Hg as [n Hn].
    apply lookup_take_Some in Hn as [Hn _]. by eapply list_elem_of_lookup_2.
  - apply elem_of_concat. exists gi. split; [|done].
    apply list_elem_of_lookup. exists i. by rewrite lookup_take_lt.
Qed.

(** For an input of positive integers, every element of a group is
    strictly smaller than every element of each later group. *)
Theorem subset_sum_ordering_groups_strictly_ordered (nums : list Z) (i j : nat)
    (gi gj : list Z) (x y : Z) :
  Forall (λ x, 0 < x) nums →
  (i < j)%nat →
  (subset_sum_ordering nums).1 !! i = Some gi →
  (subset_sum_ordering nums).1 !! j = Some gj →
  x ∈ gi → y ∈ gj → x < y.
Proof. apply groups_strictly_ordered. Qed.

Lemma subset_sum_ordering_groups_strictly_ordered_witness :
  Forall (λ x, 0 < x) [1; 20; 5; 6; 2] ∧
  (2 < 3)%nat ∧
  (subset_sum_ordering [1; 20; 5; 6; 2]).1 !! 2%nat = Some [5; 6] ∧
  (subset_sum_ordering [1; 20; 5; 6; 2]).1 !! 3%nat = Some [20] ∧
  6 ∈ [5; 6] ∧ 20 ∈ [20] ∧ 6 < 20.
Proof.
  assert (Forall (λ x, 0 < x) [1; 20; 5; 6; 2]) as H1 by (repeat constructor).
  assert (2 < 3)%nat as H2 by lia.
  assert ((subset_sum_ordering [1; 20; 5; 6; 2]).1 !! 2%nat = Some [5; 6]) as H3
    by (vm_compute; reflexivity).
  assert ((subset_sum_ordering [1; 20; 5; 6; 2]).1 !! 3%nat = Some [20]) as H4
    by (vm_compute; reflexivity).
  assert (6 ∈ [5; 6]) as H5 by (apply list_elem_of_further, list_elem_of_here).
  assert (20 ∈ [20]) as H6 by apply list_elem_of_here.
  split_and!; [done..|].
  exact (subset_sum_ordering_groups_strictly_ordered
           [1; 20; 5; 6; 2] 2 3 [5; 6] [20] 6 20 H1 H2 H3 H4 H5 H6).
Defined.

(** For an input of positive integers, equal values are never separated:
    a value occurs in one group only. *)
Theorem subset_sum_ordering_duplicates_together (nums : list Z) (i j : nat)
    (gi gj : list Z) (x : Z) :
  Forall (λ x, 0 < x) nums →
  (subset_sum_ordering nums).1 !! i = Some gi →
  (subset_sum_ordering nums).1 !! j = Some gj →
  x ∈ gi → x ∈ gj → i = j.
Proof.
  intros Hpos Hi Hj Hxi Hxj.
  destruct (lt_eq_lt_dec i j) as [[Hlt|Heq]|Hgt]; [|done|].
  - pose proof (groups_strictly_ordered nums i j gi gj x x Hpos Hlt Hi Hj Hxi Hxj). lia.
  - pose proof (groups_strictly_ordered nums j i gj gi x x Hpos Hgt Hj Hi Hxj Hxi). lia.
Qed.

Lemma subset_sum_ordering_duplicates_together_witness :
  Forall (λ x, 0 < x) [1; 2; 2] ∧
  (subset_sum_ordering [1; 2; 2]).1 !! 1%nat = Some [2; 2] ∧
  2 ∈ [2; 2] ∧ 1%nat = 1%nat.
Proof.
  assert (Forall (λ x, 0 < x) [1; 2; 2]) as H1 by (repeat constructor).
  assert ((subset_sum_ordering [1; 2; 2]).1 !! 1%nat = Some [2; 2]) as H2
    by (vm_compute; reflexivity).
  assert (2 ∈ [2; 2]) as H3 by apply list_elem_of_here.
  split_and!; [done..|].
  exact (subset_sum_ordering_duplicates_together [1; 2; 2] 1 1 [2; 2] [2; 2] 2
           H1 H2 H2 H3 H3).
Defined.

(** ** The driver's subset count *)

Lemma foldl_mul a rs : foldl Z.mul a rs = a * num_tuples rs.
Proof.
  revert a. induction rs as [|r rs IH]; intros a; simpl; [lia|].
  rewrite IH. lia.
Qed.

Lemma num_tuples_radix_of gs :
  num_tuples (radix_of <$> gs) = 2 ^ Py.len (concat gs).
Proof.
  induction gs as [|g gs IH]; [done|].
  cbn [fmap list_fmap num_tuples foldr concat].
  fold (num_tuples (radix_of <$> gs)). rewrite IH, len_app. unfold radix_of.
  rewrite Z.pow_add_r; [done|apply len_nonneg..].
Qed.

Lemma radices_match_radix_of partition :
  radices_match partition (radix_of <$> partition).
Proof. intros i g Hg. by rewrite list_lookup_fmap, Hg. Qed.

(** ** [verify] on arbitrary arguments *)

(** The pools are built from the first [k] radices whenever there are
    that many. *)
Lemma digit_tuples_long radices (k : nat) :
  (k ≤ length radices)%nat →
  digit_tuples radices (Z.of_nat k)
  = Some (Py.product (Py.range <$> reverse (take k radices))).
Proof.
  intros Hk. unfold digit_tuples.
  rewrite (mapM_Some_2 _ _ (Py.range <$> reverse (take k radices))); [done|].
  unfold Py.range_down. rewrite fmap_reverse. apply Forall2_reverse.
  apply Forall2_same_length_lookup_2.
  { rewrite length_seqZ, Nat2Z.id, length_fmap, length_take. lia. }
  intros i j pool [-> Hi]%lookup_seqZ Hpool.
  rewrite list_lookup_fmap, lookup_take_lt in Hpool by lia.
  by rewrite Z.add_0_l, index_lookup.
Qed.

Lemma digit_tuples_short radices (k : nat) :
  (length radices < k)%nat → digit_tuples radices (Z.of_nat k) = None.
Proof.
  intros Hk. unfold digit_tuples.
  rewrite (mapM_None_2 _ (Py.range_down (Z.of_nat k))); [done|].
  apply Exists_exists. exists (Z.of_nat (k - 1)). split.
  - unfold Py.range_down. apply elem_of_reverse, elem_of_seqZ. lia.
  - rewrite index_lookup, lookup_ge_None_2 by lia. done.
Qed.

Lemma product_elem_of {A} (pools : list (list A)) (t : list A) :
  t ∈ Py.product pools → Forall2 (λ x pool, x ∈ pool) t pools.
Proof.
  revert t. induction pools as [|pool pools IH]; intros t; simpl.
  - intros ->%list_elem_of_singleton. constructor.
  - intros (x & (t' & -> & Ht')%list_elem_of_fmap & Hx)%list_elem_of_bind.
    constructor; [done|]. by apply IH.
Qed.

Lemma product_empty_pool {A} (pools : list (list A)) :
  [] ∈ pools → Py.product pools = [].
Proof.
  induction pools as [|pool pools IH]; [by intros ?%elem_of_nil|].
  intros [<-|Hin]%elem_of_cons; simpl; [done|].
  rewrite IH by done. by induction pool.
Qed.

(** What the loop returns: [(True, None)], or [(False, d)] with [d]
    describing one of the tuples, at a position past [i] when there is no
    previous sum yet, with a sum strictly below the previous one. *)
Lemma verify_loop_result dm k i prev tuples valid diag :
  verify_loop dm k i prev tuples = Some (valid, diag) →
  (valid = true ∧ diag = None) ∨
  (valid = false ∧ ∃ d t,
     diag = Some d ∧ t ∈ tuples ∧ digits d = reverse t ∧
     digits_total dm k (digits d) = Some (diag_sum d) ∧
     diag_sum d < prev_sum d ∧
     i ≤ at_index d < i + Py.len tuples ∧ (prev = None → i < at_index d)).
Proof.
  revert i prev. induction tuples as [|t tuples IH]; intros i prev; simpl.
  - intros [= <- <-]. by left.
  - destruct (digits_total dm k (reverse t)) as [total|] eqn:Etot; [|done]. simpl.
    assert (verify_loop dm k (i + 1) (Some total) tuples = Some (valid, diag) →
      (valid = true ∧ diag = None) ∨
      (valid = false ∧ ∃ d t0,
         diag = Some d ∧ t0 ∈ t :: tuples ∧ digits d = reverse t0 ∧
         digits_total dm k (digits d) = Some (diag_sum d) ∧
         diag_sum d < prev_sum d ∧
         i ≤ at_index d < i + Py.len (t :: tuples) ∧ (prev = None → i < at_index d)))
      as Hrest.
    { intros [?|(-> & d & t0 & -> & Ht0 & Hd & Htd & Hlt & Hi & _)]%IH; [by left|].
      right. split; [done|]. exists d, t0. unfold Py.len in *. simpl length.
      split_and!; try done; try lia. by apply list_elem_of_further. }
    destruct prev as [p|]; [|by apply Hrest].
    case_bool_decide as Hlt; [|by apply Hrest].
    intros [= <- <-]. right. split; [done|].
    eexists _, t. simpl. unfold Py.len. simpl length.
    split_and!; try done; try (simpl; lia). apply list_elem_of_here.
Qed.

(** Whatever the arguments, a result of [verify] is either
    [(True, None)] or [(False, d)], where the diagnostic [d] has a sum
    strictly below its previous sum, a position of at least 1, and one
    digit per group, each within the range of the radix at its position. *)
Theorem verify_result_shape (partition : list (list Z)) (radices : list Z)
    (valid : bool) (diag : option diagnostic) :
  verify partition radices = Some (valid, diag) →
  (valid = true ∧ diag = None) ∨
  (valid = false ∧ ∃ d,
     diag = Some d ∧
     diag_sum d < prev_sum d ∧
     1 ≤ at_index d ∧
     length (digits d) = length partition ∧
     ∀ g dg, digits d !! g = Some dg →
       ∃ r, radices !! g = Some r ∧ 0 ≤ dg < r).
Proof.
  unfold verify. case_bool_decide as Hk; [intros [= <- <-]; by left|].
  unfold Py.len.
  destruct (decide (length partition ≤ length radices)%nat) as [Hlen|Hlen];
    [|by rewrite digit_tuples_short by lia].
  rewrite digit_tuples_long by done. simpl.
  intros [?|(-> & d & t & -> & Ht & Hd & _ & Hlt & Hi & Hi')]%verify_loop_result;
    [by left|].
  right. split; [done|]. exists d.
  apply product_elem_of, Forall2_reverse in Ht.
  rewrite <- Hd, <- fmap_reverse, reverse_involutive in Ht.
  split_and!; try done.
  - specialize (Hi' eq_refl). lia.
  - apply Forall2_length in Ht. rewrite Ht, length_fmap, length_take. lia.
  - intros g dg Hg.
    destruct (Forall2_lookup_l _ _ _ _ _ Ht Hg) as (pool & Hpool & Hdg).
    rewrite list_lookup_fmap in Hpool.
    destruct (take (length partition) radices !! g) as [r|] eqn:Hr; [|done].
    simpl in Hpool. simplify_eq. apply elem_of_range in Hdg.
    exists r. split; [|done]. by apply lookup_take_Some in Hr as [Hr _].
Qed.

Lemma verify_result_shape_witness :
  verify [[1]; [2; 2]] [2; 4] = Some (false, Some (Diagnostic 4 [0; 2] 2 3)) ∧
  ((false = true ∧ Some (Diagnostic 4 [0; 2] 2 3) = None) ∨
   (false = false ∧ ∃ d,
      Some (Diagnostic 4 [0; 2] 2 3) = Some d ∧
      diag_sum d < prev_sum d ∧
      1 ≤ at_index d ∧
      length (digits d) = length [[1]; [2; 2]] ∧
      ∀ g dg, digits d !! g = Some dg →
        ∃ r, [2; 4] !! g = Some r ∧ 0 ≤ dg < r)).
Proof.
  assert (verify [[1]; [2; 2]] [2; 4] = Some (false, Some (Diagnostic 4 [0; 2] 2 3)))
    as H by (vm_compute; reflexivity).
  split; [exact H|].
  exact (verify_result_shape [[1]; [2; 2]] [2; 4] false _ H).
Defined.

(** A radix vector shorter than a non-empty partition makes [verify]
    raise [IndexError]. *)
Theorem verify_short_radices (partition : list (list Z)) (radices : list Z) :
  (length radices < length partition)%nat →
  verify partition radices = None.
Proof.
  intros Hlen. unfold verify. rewrite bool_decide_false.
  - unfold Py.len. by rewrite digit_tuples_short.
  - unfold Py.len. lia.
Qed.

Lemma verify_short_radices_witness :
  (length [2] < length [[1]; [2; 2]])%nat ∧ verify [[1]; [2; 2]] [2] = None.
Proof.
  assert (length [2] < length [[1]; [2; 2]])%nat as H by (simpl; lia).
  split; [exact H|]. exact (verify_short_radices [[1]; [2; 2]] [2] H).
Defined.

(** [verify] reads the first [len(partition)] radices only. *)
Theorem verify_ignores_extra_radices (partition : list (list Z)) (radices : list Z) :
  verify partition radices = verify partition (take (length partition) radices).
Proof.
  destruct (decide (length partition ≤ length radices)%nat) as [Hlen|Hlen];
    [|by rewrite take_ge by lia].
  unfold verify. case_bool_decide; [done|]. unfold Py.len.
  rewrite !digit_tuples_long, ?take_idemp; [done| |done].
  rewrite length_take. lia.
Qed.

(** A radix that is zero or negative leaves nothing to enumerate: [verify]
    returns [(True, None)] without having compared any sums. *)
Theorem verify_nonpositive_radix (partition : list (list Z)) (radices : list Z)
    (j : nat) (r : Z) :
  (length partition ≤ length radices)%nat →
  (j < length partition)%nat →
  radices !! j = Some r →
  r ≤ 0 →
  verify partition radices = Some (true, None).
Proof.
  intros Hlen Hj Hr Hr0. unfold verify. case_bool_decide; [done|]. unfold Py.len.
  rewrite digit_tuples_long by done. simpl.
  rewrite product_empty_pool; [done|].
  apply list_elem_of_fmap. exists r. split.
  - unfold Py.range. by rewrite seqZ_nil.
  - apply elem_of_reverse, list_elem_of_lookup. exists j.
    by rewrite lookup_take_lt.
Qed.

Lemma verify_nonpositive_radix_witness :
  (length [[1]; [2; 2]] ≤ length [2; 0])%nat ∧
  (1 < length [[1]; [2; 2]])%nat ∧
  [2; 0] !! 1%nat = Some 0 ∧
  0 ≤ 0 ∧
  verify [[1]; [2; 2]] [2; 0] = Some (true, None).
Proof.
  assert (length [[1]; [2; 2]] ≤ length [2; 0])%nat as H1 by (simpl; lia).
  assert (1 < length [[1]; [2; 2]])%nat as H2 by (simpl; lia).
  assert ([2; 0] !! 1%nat = Some 0) as H3 by reflexivity.
  assert (0 ≤ 0) as H4 by lia.
  split_and!; [done..|].
  exact (verify_nonpositive_radix [[1]; [2; 2]] [2; 0] 1 0 H1 H2 H3 H4).
Defined.

(** ** Subset sums of digit tuples *)

Lemma mapM_fmap_compose {A B C} (f : B → option C) (g : A → B) (l : list A) :
  mapM f (g <$> l) = mapM (f ∘ g) l.
Proof.
  induction l as [|x l IH]; [done|].
  cbn [fmap list_fmap mapM]. by rewrite IH.
Qed.

Lemma index_cons_succ {A} (x : A) (l : list A) (i : Z) :
  0 ≤ i → Py.index (x :: l) (1 + i) = Py.index l i.
Proof.
  intros Hi. rewrite !index_nonneg by lia.
  by replace (Z.to_nat (1 + i)) with (S (Z.to_nat i)) by lia.
Qed.

(** The sum over [range(k)] splits off the first group. *)
Lemma digits_total_cons dm dms d ds :
  0 ≤ d →
  digits_total (dm :: dms) (Py.len (dm :: dms)) (d :: ds)
  = e ← Py.index dm d; t ← digits_total dms (Py.len dms) ds; Some (e.1 + t).
Proof.
  intros Hd. unfold digits_total, Py.range.
  pose proof (len_nonneg dms).
  rewrite seqZ_cons by (unfold Py.len in *; simpl; lia).
  replace (Z.pred (Py.len (dm :: dms))) with (Py.len dms)
    by (unfold Py.len; simpl; lia).
  change (Z.succ 0) with (1 + 0). rewrite <- fmap_add_seqZ.
  cbn [mapM]. rewrite mapM_fmap_compose.
  rewrite (Forall_mapM_ext _
    (λ g, dm' ← Py.index dms g; d' ← Py.index ds g; e ← Py.index dm' d'; Some e.1)).
  - rewrite !index_nonneg by lia. simpl.
    rewrite ?(index_nonneg dm d) by lia.
    destruct (dm !! Z.to_nat d) as [e|]; [|done]. simpl.
    by destruct (mapM _ _).
  - apply Forall_seqZ. intros g Hg. simpl.
    by rewrite !index_cons_succ by lia.
Qed.

Lemma digit_sum_index g d :
  0 ≤ d < radix_of g →
  Py.index (build_digit_map g) d = Some (build_digit_map g !!! Z.to_nat d).
Proof.
  intros Hd. rewrite index_nonneg by lia.
  apply list_lookup_lookup_total_lt.
  pose proof (build_digit_map_len g) as Hlen. unfold radix_of, Py.len in *. lia.
Qed.

Lemma digits_total_tuple_total partition i :
  digits_total (build_digit_map <$> partition) (Py.len partition)
    (digits_at partition i)
  = Some (tuple_total partition (digits_at partition i)).
Proof.
  revert i. induction partition as [|g partition IH]; intros i; [done|].
  unfold digits_at in *. cbn [fmap list_fmap mixed_radix tuple_total].
  pose proof (radix_of_pos g) as Hr.
  pose proof (Z.mod_pos_bound i (radix_of g) Hr) as Hd.
  replace (Py.len (g :: partition))
    with (Py.len (build_digit_map g :: (build_digit_map <$> partition)))
    by (unfold Py.len; simpl; by rewrite length_fmap).
  rewrite digits_total_cons by lia.
  rewrite digit_sum_index by done. simpl.
  replace (Py.len (build_digit_map <$> partition)) with (Py.len partition)
    by (unfold Py.len; by rewrite length_fmap).
  change (list_fmap _ _ build_digit_map partition) with (build_digit_map <$> partition).
  change (list_fmap _ _ radix_of partition) with (radix_of <$> partition).
  by rewrite IH.
Qed.

Lemma total_at_tuple_total partition i :
  total_at partition i = tuple_total partition (digits_at partition i).
Proof. unfold total_at. by rewrite digits_total_tuple_total. Qed.

Lemma total_at_cons g partition i :
  total_at (g :: partition) i
  = digit_sum g (i `mod` radix_of g) + total_at partition (i `div` radix_of g).
Proof. by rewrite !total_at_tuple_total. Qed.

Lemma total_at_nil i : total_at [] i = 0.
Proof. done. Qed.

(** ** When the enumeration is monotone *)

Lemma total_at_cons_split g partition d q :
  0 ≤ d < radix_of g →
  total_at (g :: partition) (d + q * radix_of g)
  = digit_sum g d + total_at partition q.
Proof.
  intros Hd. rewrite total_at_cons.
  rewrite Z.mod_add, Z.div_add by lia.
  by rewrite Z.mod_small, Z.div_small, Z.add_0_l by lia.
Qed.

(** Each step of the enumeration raises the subset sum by at least [acc]
    exactly when the gaps inside every group cover [acc] and what the
    earlier groups lose when their digits wrap around. *)
Lemma steps_gaps_cover partition acc :
  (∀ i, 0 ≤ i → i + 1 < num_tuples (radix_of <$> partition) →
     acc ≤ total_at partition (i + 1) - total_at partition i)
  ↔ gaps_cover acc partition.
Proof.
  revert acc. induction partition as [|g partition IH]; intros acc.
  - simpl. split; [done|]. intros _ i ? ?. unfold num_tuples in *. simpl in *. lia.
  - cbn [fmap list_fmap num_tuples foldr gaps_cover].
    fold (num_tuples (radix_of <$> partition)).
    pose proof (radix_of_pos g) as Hr.
    pose proof (num_tuples_pos _ (radices_pos partition)) as HN.
    set (r := radix_of g) in *. set (N := num_tuples (radix_of <$> partition)) in *.
    rewrite <- IH. split.
    + intros Hstep. split.
      * intros d Hd0 Hd1. specialize (Hstep d Hd0).
        replace (d + 1) with ((d + 1) + 0 * r) in Hstep at 2 by lia.
        replace d with (d + 0 * r) in Hstep at 3 by lia.
        unfold r in Hstep. rewrite !total_at_cons_split in Hstep by (fold r; lia).
        fold r in Hstep. specialize (Hstep ltac:(nia)). lia.
      * intros q Hq0 Hq1. specialize (Hstep ((r - 1) + q * r)).
        replace ((r - 1) + q * r + 1) with (0 + (q + 1) * r) in Hstep by lia.
        unfold r in Hstep. rewrite !total_at_cons_split in Hstep by (fold r; lia).
        fold r in Hstep. 
        assert (0 ≤ r - 1 + q * r) by nia.
        assert (0 + (q + 1) * r < r * N) by nia.
        specialize (Hstep ltac:(done) ltac:(done)). lia.
    + intros [Hgap Hstep] i Hi0 Hi1.
      pose proof (Z.div_mod i r ltac:(lia)) as Hdm.
      pose proof (Z.mod_pos_bound i r Hr) as Hd.
      assert (0 ≤ i `div` r) as Hq0 by (apply Z.div_pos; lia).
      set (d := i `mod` r) in *. set (q := i `div` r) in *.
      replace i with (d + q * r) by lia.
      destruct (decide (d + 1 < r)) as [Hlt|Hge].
      * replace (d + q * r + 1) with ((d + 1) + q * r) by lia.
        unfold r. rewrite !total_at_cons_split by (fold r; lia). fold r.
        specialize (Hgap d ltac:(lia) Hlt). lia.
      * assert (d = r - 1) as Hdr by lia.
        replace (d + q * r + 1) with (0 + (q + 1) * r) by lia.
        unfold r. rewrite !total_at_cons_split by (fold r; lia). fold r.
        assert (q + 1 < N) as Hq1 by nia.
        specialize (Hstep q Hq0 Hq1). rewrite Hdr. lia.
Qed.

(** With a matching radix vector, [verify] passes exactly when the gaps
    cover 0. *)
Lemma verify_passes_gaps_cover partition radices :
  radices_match partition radices →
  verify partition radices = Some (true, None) ↔ gaps_cover 0 partition.
Proof.
  intros Hm. destruct (verify_match partition radices Hm) as (_ & -> & _).
  rewrite <- steps_gaps_cover. split.
  - intros Hmono i Hi0 Hi1. specialize (Hmono (i + 1)).
    replace (i + 1 - 1) with i in Hmono by lia.
    specialize (Hmono ltac:(lia)). lia.
  - intros Hstep j Hj. specialize (Hstep (j - 1)).
    replace (j - 1 + 1) with j in Hstep by lia.
    specialize (Hstep ltac:(lia) ltac:(lia)). lia.
Qed.

Lemma StronglySorted_lookup_lt {A} (R : relation A) (l : list A) (i j : nat) x y :
  StronglySorted R l → l !! i = Some x → l !! j = Some y → (i < j)%nat → R x y.
Proof.
  intros Hs. revert i j. induction Hs as [|z l Hs IH Hz]; intros i j Hi Hj Hij; [done|].
  destruct j as [|j]; [lia|]. simpl in Hj. destruct i as [|i]; simpl in Hi.
  - simplify_eq. rewrite Forall_forall in Hz. by eapply Hz, list_elem_of_lookup_2.
  - eapply IH; [done..|lia].
Qed.

Lemma digit_sum_lookup g (d : nat) s mask :
  build_digit_map g !! d = Some (s, mask) → digit_sum g (Z.of_nat d) = s.
Proof.
  intros Hd. unfold digit_sum. rewrite Nat2Z.id.
  by rewrite (list_lookup_total_correct _ _ _ Hd).
Qed.

Lemma digit_map_lookup g d :
  0 ≤ d < radix_of g →
  ∃ mask, build_digit_map g !! Z.to_nat d = Some (digit_sum g d, mask).
Proof.
  intros Hd. pose proof (digit_sum_index g d Hd) as Hi.
  rewrite index_nonneg in Hi by lia. unfold digit_sum.
  destruct (build_digit_map g !!! Z.to_nat d) as [s mask]. by exists mask.
Qed.

(** Digit sums ascend with the digit. *)
Lemma digit_sum_mono g d :
  0 ≤ d → d + 1 < radix_of g → digit_sum g d ≤ digit_sum g (d + 1).
Proof.
  intros Hd0 Hd1.
  destruct (digit_map_lookup g d) as [m Hm]; [lia|].
  destruct (digit_map_lookup g (d + 1)) as [m' Hm']; [lia|].
  pose proof (StronglySorted_lookup_lt tuple_lt _ _ _ _ _
    (build_digit_map_sorted g) Hm Hm' ltac:(lia)) as Hlt.
  unfold tuple_lt in Hlt. simpl in Hlt. lia.
Qed.

Lemma selected_from_all i g mask :
  0 ≤ i →
  (∀ k, i ≤ k < i + Py.len g → Z.testbit mask k = true) →
  selected_from i g mask = g.
Proof.
  revert i. induction g as [|x g IH]; intros i Hi Hbits; simpl; [done|].
  pose proof (len_nonneg g).
  rewrite Hbits by (unfold Py.len in *; simpl; lia). simpl. f_equal.
  apply IH; [lia|]. intros k Hk. apply Hbits. unfold Py.len in *. simpl. lia.
Qed.

Lemma selected_from_sum_le i g mask :
  Forall (λ x, 0 < x) g → Py.sum (selected_from i g mask) ≤ Py.sum g.
Proof.
  intros Hpos. revert i. induction Hpos as [|x g Hx _ IH]; intros i; simpl; [done|].
  rewrite sum_app. specialize (IH (i + 1)).
  destruct (Z.testbit mask i); simpl; lia.
Qed.

(** For a group of positive integers, the first digit is the empty subset
    and the last digit the whole group. *)
Lemma build_digit_map_last g :
  Forall (λ x, 0 < x) g →
  build_digit_map g !! Z.to_nat (radix_of g - 1) = Some (Py.sum g, radix_of g - 1).
Proof.
  intros Hpos. pose proof (radix_of_pos g) as Hr. pose proof (len_nonneg g) as Hn.
  assert ((Py.sum g, radix_of g - 1) ∈ build_digit_map g) as Hin.
  { apply build_digit_map_elem_of. fold (radix_of g). split; [lia|].
    unfold selected. rewrite selected_from_all; [done..|].
    intros k Hk. unfold radix_of. rewrite Z.sub_1_r, <- Z.ones_equiv.
    apply Z.ones_spec_low. lia. }
  destruct (digit_map_lookup g (radix_of g - 1)) as [m Hm]; [lia|].
  apply list_elem_of_lookup in Hin as [i Hi].
  assert (i < length (build_digit_map g))%nat as Hlt by by eapply lookup_lt_Some.
  pose proof (build_digit_map_len g) as Hlen. fold (radix_of g) in Hlen.
  unfold Py.len in Hlen.
  destruct (decide (i = Z.to_nat (radix_of g - 1))) as [->|Hne]; [done|].
  pose proof (StronglySorted_lookup_lt tuple_lt _ _ _ _ _
    (build_digit_map_sorted g) Hi Hm ltac:(lia)) as Htl.
  assert ((digit_sum g (radix_of g - 1), m) ∈ build_digit_map g) as Hm'
    by by eapply list_elem_of_lookup_2.
  apply build_digit_map_elem_of in Hm' as [Hmr Hs]. fold (radix_of g) in Hmr.
  pose proof (selected_from_sum_le 0 g m Hpos) as Hle. fold (selected g m) in Hle.
  unfold tuple_lt in Htl. simpl in Htl. lia.
Qed.

Lemma digit_sum_last g :
  Forall (λ x, 0 < x) g → digit_sum g (radix_of g - 1) = Py.sum g.
Proof.
  intros Hpos. unfold digit_sum.
  by rewrite (list_lookup_total_correct _ _ _ (build_digit_map_last g Hpos)).
Qed.

Lemma digit_sum_first g : Forall (λ x, 0 < x) g → digit_sum g 0 = 0.
Proof.
  intros Hpos. unfold digit_sum.
  by rewrite (list_lookup_total_correct _ _ _ (build_digit_map_head g Hpos)).
Qed.

Lemma gaps_cover_lookup partition acc :
  Forall (Forall (λ x, 0 < x)) partition →
  gaps_cover acc partition ↔
  ∀ j g d s mask s' mask',
    partition !! j = Some g →
    build_digit_map g !! d = Some (s, mask) →
    build_digit_map g !! S d = Some (s', mask') →
    acc + Py.sum (concat (take j partition)) ≤ s' - s.
Proof.
  intros Hpos. revert acc.
  induction Hpos as [|g partition Hg _ IH]; intros acc; [done|].
  cbn [gaps_cover]. rewrite digit_sum_last, digit_sum_first, IH by done.
  pose proof (build_digit_map_len g) as Hlen. fold (radix_of g) in Hlen.
  unfold Py.len in Hlen. split.
  - intros [Hgap Hrest] j g' d s m s' m' Hj Hd Hd'. destruct j as [|j]; simpl in *.
    + simplify_eq. apply lookup_lt_Some in Hd' as Hlt.
      specialize (Hgap (Z.of_nat d) ltac:(lia) ltac:(lia)).
      rewrite (digit_sum_lookup _ _ _ _ Hd) in Hgap.
      replace (Z.of_nat d + 1) with (Z.of_nat (S d)) in Hgap by lia.
      rewrite (digit_sum_lookup _ _ _ _ Hd') in Hgap. lia.
    + specialize (Hrest j g' d s m s' m' Hj Hd Hd'). rewrite sum_app. lia.
  - intros Hall. split.
    + intros d Hd0 Hd1.
      destruct (digit_map_lookup g d) as [m Hm]; [lia|].
      destruct (digit_map_lookup g (d + 1)) as [m' Hm']; [lia|].
      replace (Z.to_nat (d + 1)) with (S (Z.to_nat d)) in Hm' by lia.
      specialize (Hall 0%nat g _ _ _ _ _ eq_refl Hm Hm'). simpl in Hall. lia.
    + intros j g' d s m s' m' Hj Hd Hd'.
      specialize (Hall (S j) g' d s m s' m' Hj Hd Hd'). simpl in Hall.
      rewrite sum_app in Hall. lia.
Qed.

Lemma subset_sum_ordering_positive nums :
  Forall (λ x, 0 < x) nums →
  Forall (Forall (λ x, 0 < x)) (subset_sum_ordering nums).1.
Proof.
  intros Hpos. rewrite Forall_forall in Hpos.
  apply Forall_forall. intros g Hg. apply Forall_forall. intros x Hx.
  by eapply Hpos, subset_sum_ordering_elem_of.
Qed.

(** For a partition of positive integers with its radix vector, [verify]
    returns [(True, None)] exactly when, in the digit map of every group,
    the sums of two consecutive digits differ by at least the sum of all
    elements of the earlier groups. *)
Theorem verify_passes_iff_gap_condition (partition : list (list Z)) (radices : list Z) :
  Forall (Forall (λ x, 0 < x)) partition →
  radices_match partition radices →
  verify partition radices = Some (true, None) ↔ gap_condition partition.
Proof.
  intros Hpos Hm. rewrite (verify_passes_gaps_cover _ _ Hm).
  rewrite (gaps_cover_lookup _ _ Hpos). unfold gap_condition.
  split; intros H j g d s m s' m' Hj Hd Hd';
    specialize (H j g d s m s' m' Hj Hd Hd'); lia.
Qed.

Lemma verify_passes_iff_gap_condition_witness :
  Forall (Forall (λ x, 0 < x)) [[1]; [2; 3; 4]] ∧
  radices_match [[1]; [2; 3; 4]] [2; 8] ∧
  (verify [[1]; [2; 3; 4]] [2; 8] = Some (true, None)
   ↔ gap_condition [[1]; [2; 3; 4]]).
Proof.
  assert (Forall (Forall (λ x, 0 < x)) [[1]; [2; 3; 4]]) as H1
    by (repeat constructor).
  assert (radices_match [[1]; [2; 3; 4]] [2; 8]) as H2.
  { intros i g Hg. destruct i as [|[|i]]; simpl in Hg; simplify_eq; reflexivity. }
  split_and!; [done..|].
  exact (verify_passes_iff_gap_condition [[1]; [2; 3; 4]] [2; 8] H1 H2).
Defined.

(** For an input of positive integers, the pair returned by
    [subset_sum_ordering] passes [verify] exactly when its partition meets
    the gap condition. *)
Theorem verify_ordering_iff_gap_condition (nums : list Z) :
  Forall (λ x, 0 < x) nums →
  verify_ordering nums = Some (true, None)
  ↔ gap_condition (subset_sum_ordering nums).1.
Proof.
  intros Hpos. unfold verify_ordering.
  pose proof (subset_sum_ordering_positive nums Hpos) as Hp.
  pose proof (subset_sum_ordering_radices nums) as Hr.
  destruct (subset_sum_ordering nums) as [partition radices]. simpl in *.
  subst radices.
  rewrite (verify_passes_gaps_cover _ _ (radices_match_radix_of partition)).
  rewrite (gaps_cover_lookup _ _ Hp). unfold gap_condition.
  split; intros H j g d s m s' m' Hj Hd Hd';
    specialize (H j g d s m s' m' Hj Hd Hd'); lia.
Qed.

Lemma verify_ordering_iff_gap_condition_witness :
  Forall (λ x, 0 < x) [1; 2; 3; 4] ∧
  (verify_ordering [1; 2; 3; 4] = Some (true, None)
   ↔ gap_condition (subset_sum_ordering [1; 2; 3; 4]).1).
Proof.
  assert (Forall (λ x, 0 < x) [1; 2; 3; 4]) as H1 by (repeat constructor).
  split; [exact H1|].
  exact (verify_ordering_iff_gap_condition [1; 2; 3; 4] H1).
Defined.

(** A partition with a single group always passes [verify] with its radix
    vector, whatever integers the group holds. *)
Theorem verify_single_group (g : list Z) (radices : list Z) :
  radices_match [g] radices →
  verify [g] radices = Some (true, None).
Proof.
  intros Hm. apply (verify_passes_gaps_cover _ _ Hm). simpl. split; [|done].
  intros d Hd0 Hd1. pose proof (digit_sum_mono g d Hd0 Hd1). lia.
Qed.

Lemma verify_single_group_witness :
  radices_match [[3; 5; 6; 7]] [16] ∧
  verify [[3; 5; 6; 7]] [16] = Some (true, None).
Proof.
  assert (radices_match [[3; 5; 6; 7]] [16]) as H.
  { intros i g Hg. destruct i as [|i]; simpl in Hg; simplify_eq; reflexivity. }
  split; [exact H|]. exact (verify_single_group [3; 5; 6; 7] [16] H).
Defined.

(** For a group of positive integers the digit map starts at the empty
    subset and ends at the whole group: entry 0 is [(0, 0)] and the last
    entry is [(sum(group), 2^n - 1)]. *)
Theorem build_digit_map_first_last (group : list Z) :
  Forall (λ x, 0 < x) group →
  build_digit_map group !! 0%nat = Some (0, 0) ∧
  last (build_digit_map group) = Some (Py.sum group, 2 ^ Py.len group - 1).
Proof.
  intros Hpos. split; [by apply build_digit_map_head|].
  fold (radix_of group).
  rewrite last_lookup, <- (build_digit_map_last group Hpos). f_equal.
  pose proof (build_digit_map_len group) as Hlen. fold (radix_of group) in Hlen.
  unfold Py.len in Hlen. lia.
Qed.

Lemma build_digit_map_first_last_witness :
  Forall (λ x, 0 < x) [5; 6] ∧
  build_digit_map [5; 6] !! 0%nat = Some (0, 0) ∧
  last (build_digit_map [5; 6]) = Some (Py.sum [5; 6], 2 ^ Py.len [5; 6] - 1).
Proof.
  assert (Forall (λ x, 0 < x) [5; 6]) as H by (repeat constructor).
  split; [exact H|]. exact (build_digit_map_first_last [5; 6] H).
Defined.

(** ** Super-increasing inputs *)

Lemma super_increasing_above acc l :
  0 ≤ acc →
  (∀ l1 x l2, l = l1 ++ x :: l2 → acc + Py.sum l1 < x) →
  Forall (λ x, acc < x) l ∧ StronglySorted Z.le l.
Proof.
  revert acc. induction l as [|x l IH]; intros acc Hacc Hsi.
  - split; constructor.
  - assert (acc < x) as Hx by (specialize (Hsi [] x l eq_refl); simpl in Hsi; lia).
    destruct (IH (acc + x)) as [Hall Hs]; [lia| |].
    { intros l1 y l2 ->. specialize (Hsi (x :: l1) y l2 eq_refl). simpl in Hsi. lia. }
    split.
    + constructor; [done|]. eapply Forall_impl; [done|]. simpl. lia.
    + constructor; [done|]. eapply Forall_impl; [done|]. simpl. lia.
Qed.

Lemma loop_body_cut gs c cur ps x :
  ps < x →
  loop_body (LoopState gs (c :: cur) ps) x
  = LoopState (gs ++ [c :: cur]) [x] (ps + x).
Proof.
  intros Hx. unfold loop_body. cbn [current_group prefix_sum groups].
  by rewrite bool_decide_true.
Qed.

Lemma loop_body_first gs ps x :
  loop_body (LoopState gs [] ps) x = LoopState gs [x] (ps + x).
Proof.
  unfold loop_body. cbn [current_group prefix_sum groups].
  rewrite bool_decide_false; [done|]. by intros [? _].
Qed.

(** From an open singleton group on, every element that exceeds the
    prefix sum opens a group of its own. *)
Lemma foldl_loop_body_singletons l gs c ps :
  (∀ l1 x l2, l = l1 ++ x :: l2 → ps + Py.sum l1 < x) →
  groups (foldl loop_body (LoopState gs [c] ps) l)
    ++ [current_group (foldl loop_body (LoopState gs [c] ps) l)]
  = gs ++ [c] :: ((λ x, [x]) <$> l).
Proof.
  revert gs c ps. induction l as [|x l IH]; intros gs c ps Hsi; [done|].
  assert (ps < x) as Hx by (specialize (Hsi [] x l eq_refl); simpl in Hsi; lia).
  cbn [foldl]. rewrite loop_body_cut by done. rewrite IH.
  - by rewrite <- app_assoc.
  - intros l1 y l2 ->. specialize (Hsi (x :: l1) y l2 eq_refl). simpl in Hsi. lia.
Qed.

Lemma subset_sum_ordering_singletons nums l :
  super_increasing l → nums ≡ₚ l →
  subset_sum_ordering nums = ((λ x, [x]) <$> l, (λ _, 2) <$> l).
Proof.
  intros Hsi Hp.
  destruct (super_increasing_above 0 l) as [_ Hs]; [done| |].
  { intros l1 x l2 Hl. specialize (Hsi l1 x l2 Hl). lia. }
  assert (Py.sorted Z.le nums = l) as Hsorted.
  { apply (StronglySorted_unique Z.le); [apply (sorted_StronglySorted Z.le)|done|].
    by rewrite (sorted_Permutation Z.le). }
  unfold subset_sum_ordering. rewrite Hsorted.
  destruct l as [|x l].
  { apply Permutation_nil_r in Hp as ->. done. }
  rewrite bool_decide_false
    by (intros ->; by apply Permutation_nil_cons in Hp).
  cbn [foldl]. rewrite loop_body_first, foldl_loop_body_singletons.
  - cbn [app fmap list_fmap]. f_equal. f_equal.
    rewrite <- list_fmap_compose. by apply list_fmap_ext.
  - intros l1 y l2 ->. specialize (Hsi (x :: l1) y l2 eq_refl). simpl in Hsi. lia.
Qed.

Lemma gaps_cover_singletons acc l :
  0 ≤ acc →
  (∀ l1 x l2, l = l1 ++ x :: l2 → acc + Py.sum l1 < x) →
  gaps_cover acc ((λ x, [x]) <$> l).
Proof.
  revert acc. induction l as [|x l IH]; intros acc Hacc Hsi; [done|].
  assert (acc < x) as Hx by (specialize (Hsi [] x l eq_refl); simpl in Hsi; lia).
  assert (Forall (λ y, 0 < y) [x]) as Hpos by (constructor; [lia|done]).
  cbn [fmap list_fmap gaps_cover].
  rewrite digit_sum_last, digit_sum_first by done. split.
  - intros d Hd0 Hd1. change (radix_of [x]) with 2 in Hd1.
    assert (d = 0) as -> by lia.
    pose proof (digit_sum_last [x] Hpos) as Hlast.
    change (radix_of [x] - 1) with 1 in Hlast.
    pose proof (digit_sum_first [x] Hpos) as Hfirst.
    change (0 + 1) with 1. rewrite Hlast, Hfirst. simpl. lia.
  - apply IH; [simpl; lia|].
    intros l1 y l2 ->. specialize (Hsi (x :: l1) y l2 eq_refl). simpl in *. lia.
Qed.

(** A super-increasing input, in any order, is cut into singleton groups,
    each with radix 2: the pure binary encoding. *)
Theorem subset_sum_ordering_super_increasing (nums l : list Z) :
  super_increasing l → nums ≡ₚ l →
  subset_sum_ordering nums = ((λ x, [x]) <$> l, (λ _, 2) <$> l).
Proof. apply subset_sum_ordering_singletons. Qed.

Lemma subset_sum_ordering_super_increasing_witness :
  super_increasing [1; 2; 4] ∧ [2; 1; 4] ≡ₚ [1; 2; 4] ∧
  subset_sum_ordering [2; 1; 4] = ((λ x, [x]) <$> [1; 2; 4], (λ _, 2) <$> [1; 2; 4]).
Proof.
  assert (super_increasing [1; 2; 4]) as H1.
  { intros l1 x l2 Hl.
    destruct l1 as [|a [|b [|c l3]]]; simplify_eq/=; try lia.
    match goal with H : [] = _ ++ _ |- _ => by apply app_cons_not_nil in H end. }
  assert ([2; 1; 4] ≡ₚ [1; 2; 4]) as H2 by apply perm_swap.
  split_and!; [done..|].
  exact (subset_sum_ordering_super_increasing [2; 1; 4] [1; 2; 4] H1 H2).
Defined.

(** On a super-increasing input, in any order, the pair returned by
    [subset_sum_ordering] passes [verify]. *)
Theorem verify_ordering_super_increasing (nums l : list Z) :
  super_increasing l → nums ≡ₚ l →
  verify_ordering nums = Some (true, None).
Proof.
  intros Hsi Hp. unfold verify_ordering.
  rewrite (subset_sum_ordering_singletons nums l Hsi Hp).
  apply verify_passes_gaps_cover.
  - intros i g (x & -> & Hx)%list_lookup_fmap_Some.
    by rewrite list_lookup_fmap, Hx.
  - apply gaps_cover_singletons; [done|].
    intros l1 x l2 Hl. specialize (Hsi l1 x l2 Hl). lia.
Qed.

Lemma verify_ordering_super_increasing_witness :
  super_increasing [1; 2; 4] ∧ [2; 1; 4] ≡ₚ [1; 2; 4] ∧
  verify_ordering [2; 1; 4] = Some (true, None).
Proof.
  assert (super_increasing [1; 2; 4]) as H1.
  { intros l1 x l2 Hl.
    destruct l1 as [|a [|b [|c l3]]]; simplify_eq/=; try lia.
    match goal with H : [] = _ ++ _ |- _ => by apply app_cons_not_nil in H end. }
  assert ([2; 1; 4] ≡ₚ [1; 2; 4]) as H2 by apply perm_swap.
  split_and!; [done..|].
  exact (verify_ordering_super_increasing [2; 1; 4] [1; 2; 4] H1 H2).
Defined.

(** ** What a passing verification implies *)

Lemma increasing_chain (l : list (Z * Z)) acc :
  0 < acc →
  (∀ d e e', l !! d = Some e → l !! S d = Some e' → acc ≤ e'.1 - e.1) →
  ∀ n d e e', l !! d = Some e → l !! (d + S n)%nat = Some e' → e.1 < e'.1.
Proof.
  intros Hacc Hstep n. induction n as [|n IH]; intros d e e' Hd Hd'.
  - replace (d + 1)%nat with (S d) in Hd' by lia.
    specialize (Hstep d e e' Hd Hd'). lia.
  - destruct (lookup_lt_is_Some_2 l (d + S n)) as [e'' He''].
    { apply lookup_lt_Some in Hd'. lia. }
    specialize (IH d e e'' Hd He'').
    replace (d + S (S n))%nat with (S (d + S n)) in Hd' by lia.
    specialize (Hstep _ _ _ He'' Hd'). lia.
Qed.

(** If [verify] passes on a partition of positive integers with its radix
    vector, then in every group that has something before it, two
    different subsets never have the same sum. *)
Theorem verify_pass_distinct_sums (partition : list (list Z)) (radices : list Z)
    (j : nat) (g : list Z) (mask mask' : Z) :
  Forall (Forall (λ x, 0 < x)) partition →
  radices_match partition radices →
  verify partition radices = Some (true, None) →
  partition !! j = Some g →
  0 < Py.sum (concat (take j partition)) →
  0 ≤ mask < 2 ^ Py.len g →
  0 ≤ mask' < 2 ^ Py.len g →
  mask ≠ mask' →
  Py.sum (selected g mask) ≠ Py.sum (selected g mask').
Proof.
  intros Hpos Hm Hpass Hj Hacc Hmask Hmask' Hne Heq.
  apply (verify_passes_gaps_cover _ _ Hm) in Hpass.
  rewrite (gaps_cover_lookup _ _ Hpos) in Hpass.
  assert (∀ d e e', build_digit_map g !! d = Some e →
            build_digit_map g !! S d = Some e' →
            Py.sum (concat (take j partition)) ≤ e'.1 - e.1) as Hstep.
  { intros d [s m] [s' m'] Hd Hd'. simpl.
    specialize (Hpass j g d s m s' m' Hj Hd Hd'). lia. }
  pose proof (increasing_chain _ _ Hacc Hstep) as Hchain.
  assert ((Py.sum (selected g mask), mask) ∈ build_digit_map g) as [d Hd]%list_elem_of_lookup
    by by apply build_digit_map_elem_of.
  assert ((Py.sum (selected g mask'), mask') ∈ build_digit_map g) as [d' Hd']%list_elem_of_lookup
    by by apply build_digit_map_elem_of.
  destruct (lt_eq_lt_dec d d') as [[Hlt|Hdd]|Hgt].
  - replace d' with (d + S (d' - d - 1))%nat in Hd' by lia.
    specialize (Hchain _ _ _ _ Hd Hd'). simpl in Hchain. lia.
  - subst d'. rewrite Hd in Hd'. by simplify_eq.
  - replace d with (d' + S (d - d' - 1))%nat in Hd by lia.
    specialize (Hchain _ _ _ _ Hd' Hd). simpl in Hchain. lia.
Qed.

Lemma verify_pass_distinct_sums_witness :
  Forall (Forall (λ x, 0 < x)) [[1]; [2; 3; 4]] ∧
  radices_match [[1]; [2; 3; 4]] [2; 8] ∧
  verify [[1]; [2; 3; 4]] [2; 8] = Some (true, None) ∧
  [[1]; [2; 3; 4]] !! 1%nat = Some [2; 3; 4] ∧
  0 < Py.sum (concat (take 1 [[1]; [2; 3; 4]])) ∧
  0 ≤ 1 < 2 ^ Py.len [2; 3; 4] ∧
  0 ≤ 2 < 2 ^ Py.len [2; 3; 4] ∧
  1 ≠ 2 ∧
  Py.sum (selected [2; 3; 4] 1) ≠ Py.sum (selected [2; 3; 4] 2).
Proof.
  assert (Forall (Forall (λ x, 0 < x)) [[1]; [2; 3; 4]]) as H1
    by (repeat constructor).
  assert (radices_match [[1]; [2; 3; 4]] [2; 8]) as H2.
  { intros i g Hg. destruct i as [|[|i]]; simpl in Hg; simplify_eq; reflexivity. }
  assert (verify [[1]; [2; 3; 4]] [2; 8] = Some (true, None)) as H3
    by (vm_compute; reflexivity).
  assert ([[1]; [2; 3; 4]] !! 1%nat = Some [2; 3; 4]) as H4 by reflexivity.
  assert (0 < Py.sum (concat (take 1 [[1]; [2; 3; 4]]))) as H5
    by (vm_compute; reflexivity).
  assert (0 ≤ 1 < 2 ^ Py.len [2; 3; 4]) as H6 by (vm_compute; split; [discriminate|reflexivity]).
  assert (0 ≤ 2 < 2 ^ Py.len [2; 3; 4]) as H7 by (vm_compute; split; [discriminate|reflexivity]).
  assert (1 ≠ 2) as H8 by lia.
  split_and!; [done..|].
  exact (verify_pass_distinct_sums [[1]; [2; 3; 4]] [2; 8] 1 [2; 3; 4] 1 2
           H1 H2 H3 H4 H5 H6 H7 H8).
Defined.

(** ** Oversized radices *)

Lemma product_elem_of_2 {A} (pools : list (list A)) (t : list A) :
  Forall2 (λ x pool, x ∈ pool) t pools → t ∈ Py.product pools.
Proof.
  induction 1 as [|x pool t pools Hx _ IH]; simpl.
  - apply list_elem_of_here.
  - apply list_elem_of_bind. exists x. split; [|done].
    by apply list_elem_of_fmap_2.
Qed.

(** A loop that runs to the end has summed every tuple. *)
Lemma verify_loop_pass_totals dm k i prev tuples t :
  verify_loop dm k i prev tuples = Some (true, None) →
  t ∈ tuples → is_Some (digits_total dm k (reverse t)).
Proof.
  revert i prev. induction tuples as [|t0 tuples IH]; intros i prev Hpass Ht.
  - by apply elem_of_nil in Ht.
  - simpl in Hpass.
    destruct (digits_total dm k (reverse t0)) as [total|] eqn:Etot; [|done].
    simpl in Hpass.
    apply elem_of_cons in Ht as [->|Ht]; [by rewrite Etot|].
    destruct prev as [p|]; [case_bool_decide; [done|]|]; by eapply IH.
Qed.

(** [verify] never returns [(True, None)] when, among positive radices,
    one exceeds the number of entries of its group's digit map: the
    enumeration then reaches a digit with no entry, so the call raises
    [IndexError] unless it has reported a violation before. *)
Theorem verify_oversized_radix (partition : list (list Z)) (radices : list Z)
    (j : nat) (g : list Z) (r : Z) :
  (length partition ≤ length radices)%nat →
  Forall (λ r, 0 < r) (take (length partition) radices) →
  partition !! j = Some g →
  radices !! j = Some r →
  2 ^ Py.len g < r →
  verify partition radices ≠ Some (true, None).
Proof.
  intros Hlen Hpos Hg Hr Hbig Hpass.
  assert (j < length partition)%nat as Hj by by eapply lookup_lt_Some.
  unfold verify in Hpass. rewrite bool_decide_false in Hpass
    by (unfold Py.len; lia).
  unfold Py.len in Hpass. rewrite digit_tuples_long in Hpass by done.
  simpl in Hpass.
  set (k := length partition) in *.
  set (ds := <[j := r - 1]> (replicate k 0)).
  assert (Forall2 (λ d pool, d ∈ pool) ds (Py.range <$> take k radices)) as Hds.
  { apply Forall2_fmap_r, Forall2_same_length_lookup_2.
    { unfold ds. rewrite length_insert, length_replicate, length_take. lia. }
    intros i d r' Hd Hr'. simpl. apply elem_of_range.
    rewrite Forall_forall in Hpos.
    assert (0 < r') by by eapply Hpos, list_elem_of_lookup_2.
    apply lookup_take_Some in Hr' as [Hr' Hi].
    unfold ds in Hd. destruct (decide (j = i)) as [->|Hne].
    - rewrite list_lookup_insert_eq in Hd by (rewrite length_replicate; lia).
      simplify_eq. lia.
    - rewrite list_lookup_insert_ne in Hd by done.
      apply lookup_replicate_1 in Hd as [-> _]. lia. }
  apply Forall2_reverse in Hds. rewrite <- fmap_reverse in Hds.
  apply product_elem_of_2 in Hds.
  destruct (verify_loop_pass_totals _ _ _ _ _ _ Hpass Hds) as [total Htot].
  rewrite reverse_involutive in Htot. unfold digits_total in Htot.
  destruct (mapM _ _) as [sums|] eqn:Esums; [|done].
  assert (is_Some (mapM (λ g0,
            dm ← Py.index (build_digit_map <$> partition) g0;
            d ← Py.index ds g0;
            e ← Py.index dm d;
            Some e.1) (Py.range (Z.of_nat k)))) as Hall by by rewrite Esums.
  apply mapM_is_Some_1 in Hall. rewrite Forall_forall in Hall.
  destruct (Hall (Z.of_nat j)) as [s Hs]. { apply elem_of_range. lia. }
  simpl in Hs. rewrite !index_lookup in Hs.
  rewrite list_lookup_fmap, Hg in Hs. simpl in Hs.
  unfold ds in Hs.
  rewrite list_lookup_insert_eq in Hs by (rewrite length_replicate; lia).
  simpl in Hs.
  pose proof (len_nonneg g). pose proof (Z.pow_pos_nonneg 2 (Py.len g)).
  rewrite index_nonneg in Hs by lia.
  rewrite lookup_ge_None_2 in Hs; [done|].
  pose proof (build_digit_map_len g) as Hl. unfold Py.len in *. lia.
Qed.

Lemma verify_oversized_radix_witness :
  (length [[1]] ≤ length [3])%nat ∧
  Forall (λ r, 0 < r) (take (length [[1]]) [3]) ∧
  [[1]] !! 0%nat = Some [1] ∧
  [3] !! 0%nat = Some 3 ∧
  2 ^ Py.len [1] < 3 ∧
  verify [[1]] [3] ≠ Some (true, None).
Proof.
  assert (length [[1]] ≤ length [3])%nat as H1 by (simpl; lia).
  assert (Forall (λ r, 0 < r) (take (length [[1]]) [3])) as H2
    by (repeat constructor).
  assert ([[1]] !! 0%nat = Some [1]) as H3 by reflexivity.
  assert ([3] !! 0%nat = Some 3) as H4 by reflexivity.
  assert (2 ^ Py.len [1] < 3) as H5 by (vm_compute; reflexivity).
  split_and!; [done..|].
  exact (verify_oversized_radix [[1]] [3] 0 [1] 3 H1 H2 H3 H4 H5).
Defined.

(** ** The sums [verify] compares are subset sums *)

Lemma selected_from_sublist i g mask : selected_from i g mask `sublist_of` g.
Proof.
  revert i. induction g as [|x g IH]; intros i; simpl; [done|].
  destruct (Z.testbit mask i); simpl.
  - by apply sublist_skip.
  - by apply sublist_cons.
Qed.

Lemma digit_sum_selected g d :
  0 ≤ d < radix_of g → digit_sum g d = Py.sum (selected g (digit_mask g d)).
Proof.
  intros Hd. destruct (digit_map_lookup g d Hd) as [m Hm].
  unfold digit_mask. rewrite (list_lookup_total_correct _ _ _ Hm). simpl.
  apply list_elem_of_lookup_2, build_digit_map_elem_of in Hm. by destruct Hm.
Qed.

Lemma tuple_total_subset partition i :
  tuple_total partition (digits_at partition i)
  = Py.sum (tuple_subset partition (digits_at partition i))
  ∧ tuple_subset partition (digits_at partition i) `sublist_of` concat partition.
Proof.
  revert i. induction partition as [|g partition IH]; intros i; [done|].
  unfold digits_at in *. cbn [fmap list_fmap mixed_radix tuple_total tuple_subset concat].
  change (list_fmap _ _ radix_of partition) with (radix_of <$> partition).
  destruct (IH (i `div` radix_of g)) as [-> Hsub].
  pose proof (Z.mod_pos_bound i (radix_of g) (radix_of_pos g)) as Hd.
  rewrite sum_app, digit_sum_selected by done. split; [done|].
  apply sublist_app; [apply selected_from_sublist|done].
Qed.

(** Every sum [verify] compares is the sum of a sub-list of the flattened
    partition: at position [i] it is the sum of the elements that the
    bitmasks of the tuple's digits select, group by group. *)
Theorem verify_totals_are_subset_sums (partition : list (list Z)) (i : Z) :
  digits_total (build_digit_map <$> partition) (Py.len partition)
    (digits_at partition i)
  = Some (Py.sum (tuple_subset partition (digits_at partition i)))
  ∧ tuple_subset partition (digits_at partition i) `sublist_of` concat partition.
Proof.
  destruct (tuple_total_subset partition i) as [Heq Hsub]. split; [|done].
  by rewrite digits_total_tuple_total, Heq.
Qed.

(** ** The lookups of [build_digit_map] *)

(** While [build_digit_map] sums a subset, every index at which it reads
    the group is a valid one: the lookup [group[i]] never raises. *)
Theorem build_digit_map_lookups_in_bounds (group : list Z) (mask i : Z) :
  i ∈ filter (λ i, Z.land (mask ≫ i) 1 ≠ 0) (Py.range (Py.len group)) →
  0 ≤ i < Py.len group ∧ Z.testbit mask i = true ∧
  Py.index group i = Some (group !!! Z.to_nat i).
Proof.
  intros [Hbit Hi]%list_elem_of_filter.
  pose proof Hi as [Hi0 Hi1]%elem_of_range.
  split_and!; [done..| |].
  - by apply shift_and_testbit.
  - by apply mask_sum_index_in_bounds.
Qed.

Lemma build_digit_map_lookups_in_bounds_witness :
  1 ∈ filter (λ i, Z.land (6 ≫ i) 1 ≠ 0) (Py.range (Py.len [5; 6; 7])) ∧
  0 ≤ 1 < Py.len [5; 6; 7] ∧ Z.testbit 6 1 = true ∧
  Py.index [5; 6; 7] 1 = Some ([5; 6; 7] !!! Z.to_nat 1).
Proof.
  assert (1 ∈ filter (λ i, Z.land (6 ≫ i) 1 ≠ 0) (Py.range (Py.len [5; 6; 7]))) as H.
  { apply list_elem_of_filter. split; [by vm_compute|].
    apply elem_of_range. by vm_compute. }
  split; [exact H|]. exact (build_digit_map_lookups_in_bounds [5; 6; 7] 6 1 H).
Defined.

(** ** The driver *)

(** The rows the driver computes for its six examples.  It reports
    [Valid: True] for [[1, 2, 3, 4]], [[1, 1, 2, 4]], [[1, 2, 4, 8, 16]]
    and [[10]], and [Valid: False] for [[1, 20, 5, 6, 2]] and
    [[3, 5, 6, 7]]. *)
Theorem driver_rows :
  driver_row <$> examples =
  [ ([[1]; [2]; [5; 6]; [20]], [2; 2; 4; 2], 32,
     Some (false, Some (Diagnostic 8 [0; 0; 2; 0] 6 8)));
    ([[1]; [2; 3; 4]], [2; 8], 16, Some (true, None));
    ([[3]; [5; 6; 7]], [2; 8], 16,
     Some (false, Some (Diagnostic 4 [0; 2] 6 8)));
    ([[1; 1; 2; 4]], [16], 16, Some (true, None));
    ([[1]; [2]; [4]; [8]; [16]], [2; 2; 2; 2; 2], 32, Some (true, None));
    ([[10]], [2], 2, Some (true, None)) ].
Proof. vm_compute. reflexivity. Qed.

(** ** The driver's subset count and the positions [verify] reports *)

(** The subset count the driver prints is [2^len(nums)], and a violation
    that [verify] reports for the returned pair sits at a position from 1
    up to, and not including, that count. *)
Theorem driver_total_subsets (nums : list Z) :
  let '(partition, radices) := subset_sum_ordering nums in
  total_subsets radices = 2 ^ Py.len nums ∧
  ∀ d, verify partition radices = Some (false, Some d) →
    1 ≤ at_index d < total_subsets radices.
Proof.
  pose proof (subset_sum_ordering_concat nums) as Hc.
  pose proof (subset_sum_ordering_radices nums) as Hr.
  destruct (subset_sum_ordering nums) as [partition radices]. simpl in *.
  subst radices. unfold total_subsets. rewrite foldl_mul, Z.mul_1_l.
  split.
  - rewrite num_tuples_radix_of, Hc. unfold Py.len.
    by rewrite (sorted_Permutation Z.le).
  - intros d. unfold verify. case_bool_decide; [done|].
    destruct (digit_tuples_enumeration partition _ (radices_match_radix_of partition))
      as (tuples & -> & Htup).
    simpl. intros [[_ [=]]|(_ & d' & t & [= <-] & _ & _ & _ & _ & Hi & Hi')]%verify_loop_result.
    apply (f_equal length) in Htup. rewrite !length_fmap in Htup.
    unfold Py.range in Htup. rewrite length_seqZ in Htup.
    unfold Py.len in Hi. rewrite Htup in Hi.
    pose proof (num_tuples_pos _ (radices_pos partition)).
    specialize (Hi' eq_refl). lia.
Qed.

(** ** The enumeration and the sums of [verify] on arbitrary arguments *)

Lemma enum_count_positive rs :
  Forall (λ r, 0 < r) rs → enum_count rs = num_tuples rs.
Proof.
  induction 1 as [|r rs Hr _ IH]; [done|].
  unfold enum_count, num_tuples in *. simpl. rewrite IH.
  by rewrite Z.max_r by lia.
Qed.

Lemma enum_count_nonpositive rs :
  Exists (λ r, ¬ 0 < r) rs → enum_count rs = 0.
Proof.
  induction 1 as [r rs Hr|r rs _ IH]; unfold enum_count in *; simpl.
  - by rewrite Z.max_l by lia.
  - rewrite IH. lia.
Qed.

Lemma enum_count_positive_inv rs : 0 < enum_count rs → Forall (λ r, 0 < r) rs.
Proof.
  intros HN. destruct (decide (Forall (λ r, 0 < r) rs)) as [|Hneg]; [done|].
  apply not_Forall_Exists in Hneg; [|apply _].
  rewrite enum_count_nonpositive in HN by done. lia.
Qed.

(** The order of the enumeration for any radices: after the reversal that
    aligns a tuple with the partition, position [i] of the product over the
    reversed radices holds the mixed-radix digits of [i]; there is no
    position at all when a radix is zero or negative. *)
Lemma product_enumeration rs :
  reverse <$> Py.product (Py.range <$> reverse rs)
  = mixed_radix rs <$> Py.range (enum_count rs).
Proof.
  destruct (decide (Forall (λ r, 0 < r) rs)) as [Hpos|Hneg].
  - rewrite product_mixed_radix by by apply Forall_reverse.
    by rewrite reverse_involutive, enum_count_positive.
  - apply not_Forall_Exists in Hneg; [|apply _].
    rewrite enum_count_nonpositive by done.
    apply Exists_exists in Hneg as (r & Hr & Hr0).
    rewrite product_empty_pool; [done|].
    apply list_elem_of_fmap. exists r. split; [|by apply elem_of_reverse].
    simpl in Hr0. unfold Py.range. rewrite seqZ_nil; [done|lia].
Qed.

Lemma mixed_radix_nonneg rs i :
  Forall (λ r, 0 < r) rs → Forall (λ d, 0 ≤ d) (mixed_radix rs i).
Proof.
  intros Hpos. revert i. induction Hpos as [|r rs Hr _ IH]; intros i; simpl; [done|].
  constructor; [|done]. by apply Z.mod_pos_bound.
Qed.

(** The sum [verify] computes for a tuple of non-negative digits, one per
    group, is the subset sum the tuple stands for, and the lookup fails
    exactly when there is none. *)
Lemma digits_total_subset_total partition digits :
  length digits = length partition →
  Forall (λ d, 0 ≤ d) digits →
  digits_total (build_digit_map <$> partition) (Py.len partition) digits
  = subset_total partition digits.
Proof.
  revert digits. induction partition as [|g partition IH]; intros digits Hlen Hpos.
  - by destruct digits.
  - destruct digits as [|d digits]; [done|].
    apply Forall_cons in Hpos as [Hd Hpos]. simpl in Hlen.
    cbn [fmap list_fmap subset_total].
    change (list_fmap _ _ build_digit_map partition) with (build_digit_map <$> partition).
    replace (Py.len (g :: partition))
      with (Py.len (build_digit_map g :: (build_digit_map <$> partition)))
      by (unfold Py.len; simpl; by rewrite length_fmap).
    rewrite digits_total_cons by done.
    replace (Py.len (build_digit_map <$> partition)) with (Py.len partition)
      by (unfold Py.len; by rewrite length_fmap).
    rewrite IH by (done || lia). rewrite index_nonneg by done.
    destruct (build_digit_map g !! Z.to_nat d) as [[s mask]|] eqn:He; [|done].
    simpl. apply list_elem_of_lookup_2, build_digit_map_elem_of in He as [_ ->].
    done.
Qed.

(** The loop of [verify] from position [a] on, over [n] tuples, the
    previous subset sum being [p], that of position [a - 1]: it stops at
    the first position whose sum is below the sum before it, and it raises
    when it reaches a tuple that has no sum. *)
Lemma verify_loop_first_violation dm k (D : Z → list Z) (T : Z → option Z)
    tuples a n p :
  0 ≤ n →
  reverse <$> tuples = D <$> seqZ a n →
  (∀ i, a ≤ i < a + n → digits_total dm k (D i) = T i) →
  T (a - 1) = Some p →
  (∀ d, verify_loop dm k a (Some p) tuples = Some (false, Some d) ↔
     ∃ i t q, a ≤ i < a + n ∧ T i = Some t ∧ T (i - 1) = Some q ∧ t < q ∧
       (∀ j, a ≤ j < i →
          ∃ tj pj, T j = Some tj ∧ T (j - 1) = Some pj ∧ pj ≤ tj) ∧
       d = Diagnostic i (D i) t q)
  ∧ (verify_loop dm k a (Some p) tuples = Some (true, None) ↔
     ∀ j, a ≤ j < a + n →
       ∃ tj pj, T j = Some tj ∧ T (j - 1) = Some pj ∧ pj ≤ tj).
Proof.
  revert a n p. induction tuples as [|t tuples IH]; intros a n p Hn Htup Htot Hp.
  - assert (n = 0) as ->.
    { apply (f_equal length) in Htup. rewrite !length_fmap, length_seqZ in Htup.
      simpl in Htup. lia. }
    simpl. split.
    + intros d. split; [done|]. intros (i & _ & _ & ? & _). lia.
    + split; [|done]. intros _ j ?. lia.
  - assert (0 < n) as Hpos.
    { apply (f_equal length) in Htup. rewrite !length_fmap, length_seqZ in Htup.
      simpl in Htup. lia. }
    rewrite seqZ_cons in Htup by done. simpl in Htup.
    injection Htup as Ht Htup. simpl. rewrite Ht, Htot by lia.
    destruct (T a) as [ta|] eqn:ETa; simpl.
    + case_bool_decide as Hlt.
      * split.
        -- intros d. split.
           ++ intros [= <-]. exists a, ta, p.
              split_and!; try done; try lia; intros j ?; lia.
           ++ intros (i & t' & q & Hi & HTi & HTi1 & Hlt' & Hmono & ->).
              destruct (decide (i = a)) as [->|Hne].
              ** rewrite ETa in HTi. rewrite Hp in HTi1. by simplify_eq.
              ** destruct (Hmono a) as (tj & pj & Htj & Hpj & Hle); [lia|].
                 rewrite ETa in Htj. rewrite Hp in Hpj. simplify_eq. lia.
        -- split; [done|]. intros Hmono.
           destruct (Hmono a) as (tj & pj & Htj & Hpj & Hle); [lia|].
           rewrite ETa in Htj. rewrite Hp in Hpj. simplify_eq. lia.
      * specialize (IH (Z.succ a) (Z.pred n) ta).
        replace (Z.succ a - 1) with a in IH by lia.
        replace (a + 1) with (Z.succ a) by lia.
        destruct IH as [IHf IHt]; [lia|done|intros i ?; apply Htot; lia|done|].
        split.
        -- intros d. rewrite IHf. split.
           ++ intros (i & t' & q & Hi & HTi & HTi1 & Hlt' & Hmono & ->).
              exists i, t', q. split_and!; try done; try lia.
              intros j Hj. destruct (decide (j = a)) as [->|Hne].
              ** exists ta, p. split_and!; [done..|lia].
              ** apply Hmono. lia.
           ++ intros (i & t' & q & Hi & HTi & HTi1 & Hlt' & Hmono & ->).
              destruct (decide (i = a)) as [->|Hne].
              ** rewrite ETa in HTi. rewrite Hp in HTi1. simplify_eq. lia.
              ** exists i, t', q. split_and!; try done; try lia.
                 intros j Hj. apply Hmono. lia.
        -- rewrite IHt. split.
           ++ intros Hmono j Hj. destruct (decide (j = a)) as [->|Hne].
              ** exists ta, p. split_and!; [done..|lia].
              ** apply Hmono. lia.
           ++ intros Hmono j Hj. apply Hmono. lia.
    + split.
      * intros d. split; [done|].
        intros (i & t' & q & Hi & HTi & HTi1 & Hlt' & Hmono & ->).
        destruct (decide (i = a)) as [->|Hne]; [by rewrite ETa in HTi|].
        destruct (Hmono a) as (tj & pj & Htj & _); [lia|].
        by rewrite ETa in Htj.
      * split; [done|]. intros Hmono.
        destruct (Hmono a) as (tj & pj & Htj & _); [lia|].
        by rewrite ETa in Htj.
Qed.

Lemma radices_match_take partition radices :
  radices_match partition radices →
  take (length partition) radices = radix_of <$> partition.
Proof.
  intros Hm. apply list_eq. intros i.
  destruct (decide (i < length partition)%nat) as [Hlt|Hge].
  - rewrite lookup_take_lt by done.
    destruct (lookup_lt_is_Some_2 partition i Hlt) as [g Hg].
    by rewrite (Hm i g Hg), list_lookup_fmap, Hg.
  - rewrite lookup_take_ge by lia.
    by rewrite list_lookup_fmap, lookup_ge_None_2 by lia.
Qed.

Lemma radices_match_length partition radices :
  radices_match partition radices → (length partition ≤ length radices)%nat.
Proof.
  intros Hm. apply radices_match_take in Hm.
  apply (f_equal length) in Hm. rewrite length_take, length_fmap in Hm. lia.
Qed.

Lemma range_nonpositive n : n ≤ 0 → Py.range n = [].
Proof. intros Hn. unfold Py.range. by rewrite seqZ_nil. Qed.

Lemma range_positive n : 0 < n → Py.range n = 0 :: seqZ 1 (Z.pred n).
Proof. intros Hn. unfold Py.range. by rewrite seqZ_cons. Qed.

(** C7: [verify] runs over the digit tuples in mixed-radix order, group 0
    the least significant digit (varying fastest) and the last group the
    most significant (varying slowest): position [i] of the enumeration
    holds the mixed-radix digits of [i] for the first [len(partition)]
    radices.  The total it computes for a tuple is the subset sum the
    tuple stands for.  It returns [(False, diagnostic)] exactly when some
    position has a subset sum strictly below the one just before it, the
    diagnostic recording the first such position, its digit tuple, its sum
    and the previous sum; otherwise it returns [(True, None)].  A call
    raises [IndexError], and returns neither, when the radix vector is
    shorter than a non-empty partition or when the enumeration reaches a
    digit without an entry in its digit map before any violation; with
    the radix vector that goes with the partition neither happens. *)
Theorem verify_reports_first_violation (partition : list (list Z)) (radices : list Z) :
  let k := length partition in
  let rs := take k radices in
  let N := enum_count rs in
  let D := mixed_radix rs in
  let T := λ i, subset_total partition (D i) in
  ((k ≤ length radices)%nat →
     (∃ tuples,
        digit_tuples radices (Py.len partition) = Some tuples ∧
        reverse <$> tuples = D <$> Py.range N)
     ∧ ∀ i, 0 ≤ i < N →
         radix_value rs (D i) = i ∧
         digits_total (build_digit_map <$> partition) (Py.len partition) (D i)
         = T i)
  ∧ (∀ d, verify partition radices = Some (false, Some d) ↔
       (k ≤ length radices)%nat ∧
       ∃ i t p, 1 ≤ i < N ∧ T i = Some t ∧ T (i - 1) = Some p ∧ t < p ∧
         (∀ j, 1 ≤ j < i →
            ∃ tj pj, T j = Some tj ∧ T (j - 1) = Some pj ∧ pj ≤ tj) ∧
         d = Diagnostic i (D i) t p)
  ∧ (verify partition radices = Some (true, None) ↔
       k = 0%nat ∨
       ((k ≤ length radices)%nat ∧
        (∀ j, 0 ≤ j < N → is_Some (T j)) ∧
        ∀ j tj pj, 1 ≤ j < N →
          T j = Some tj → T (j - 1) = Some pj → pj ≤ tj))
  ∧ (radices_match partition radices →
       (k ≤ length radices)%nat ∧
       (∀ j, 0 ≤ j < N → is_Some (T j)) ∧
       (verify partition radices = Some (true, None)
        ∨ ∃ d, verify partition radices = Some (false, Some d))).
Proof.
  intros k rs N D T.
  assert (∀ i, (k ≤ length radices)%nat → 0 ≤ i < N →
            digits_total (build_digit_map <$> partition) (Py.len partition) (D i)
            = T i) as Htotal.
  { intros i Hlen Hi.
    assert (Forall (λ r, 0 < r) rs) as Hpos by (apply enum_count_positive_inv; lia).
    apply digits_total_subset_total.
    - unfold D, rs. rewrite mixed_radix_length, length_take. lia.
    - by apply mixed_radix_nonneg. }
  assert ((k ≤ length radices)%nat →
          digit_tuples radices (Py.len partition)
          = Some (Py.product (Py.range <$> reverse rs))) as Htuples.
  { intros Hlen. unfold Py.len. by apply digit_tuples_long. }
  split_and!.
  - intros Hlen. split.
    + eexists. split; [by apply Htuples|]. apply product_enumeration.
    + intros i Hi. split; [|by apply Htotal].
      assert (Forall (λ r, 0 < r) rs) as Hpos by (apply enum_count_positive_inv; lia).
      apply radix_value_mixed_radix; [done|].
      by rewrite <- enum_count_positive.
  - intros d. unfold verify. case_bool_decide as Hk.
    { assert (k = 0%nat) as Hk0 by (unfold Py.len in Hk; lia).
      assert (N = 1) as HN by (unfold N, rs; by rewrite Hk0).
      split; [done|]. intros (_ & i & _ & _ & ? & _). lia. }
    destruct (decide (k ≤ length radices)%nat) as [Hlen|Hlen]; last first.
    { unfold Py.len. rewrite digit_tuples_short by lia.
      split; [done|]. by intros [? _]. }
    rewrite Htuples by done. simpl.
    pose proof (product_enumeration rs) as Htup. fold D N in Htup.
    destruct (decide (0 < N)) as [HN|HN]; last first.
    { rewrite range_nonpositive in Htup by lia.
      apply fmap_nil_inv in Htup. rewrite Htup. simpl.
      split; [done|]. intros (_ & i & _ & _ & ? & _). lia. }
    rewrite range_positive in Htup by done.
    destruct (Py.product (Py.range <$> reverse rs)) as [|t0 tuples]; [done|].
    simpl in Htup. injection Htup as Ht0 Htup.
    simpl. rewrite Ht0, Htotal by (done || lia).
    destruct (T 0) as [p0|] eqn:ET0; simpl.
    + destruct (verify_loop_first_violation (build_digit_map <$> partition)
                  (Py.len partition) D T tuples 1 (Z.pred N) p0) as [Hf _];
        [lia|done|intros i ?; apply Htotal; [done|lia]|done|].
      change (0 + 1) with 1. rewrite Hf. split.
      * intros (i & t & q & Hi & Hrest). split; [done|].
        exists i, t, q. split; [lia|done].
      * intros (_ & i & t & q & Hi & Hrest). exists i, t, q. split; [lia|done].
    + split; [done|]. intros (_ & i & t & q & Hi & HTi & HTi1 & _ & Hmono & _).
      destruct (decide (i = 1)) as [->|Hne].
      * change (1 - 1) with 0 in HTi1. by rewrite ET0 in HTi1.
      * destruct (Hmono 1) as (tj & pj & _ & Hpj & _); [lia|].
        change (1 - 1) with 0 in Hpj. by rewrite ET0 in Hpj.
  - unfold verify. case_bool_decide as Hk.
    { split; [|done]. intros _. left. unfold Py.len in Hk. lia. }
    assert (k ≠ 0%nat) as Hk0 by (unfold Py.len in Hk; lia).
    destruct (decide (k ≤ length radices)%nat) as [Hlen|Hlen]; last first.
    { unfold Py.len. rewrite digit_tuples_short by lia.
      split; [done|]. intros [?|[? _]]; done. }
    rewrite Htuples by done. simpl.
    pose proof (product_enumeration rs) as Htup. fold D N in Htup.
    destruct (decide (0 < N)) as [HN|HN]; last first.
    { rewrite range_nonpositive in Htup by lia.
      apply fmap_nil_inv in Htup. rewrite Htup. simpl.
      split; [|done]. intros _. right. split; [done|].
      split; [intros j ?; lia|intros j ? ? ?; lia]. }
    rewrite range_positive in Htup by done.
    destruct (Py.product (Py.range <$> reverse rs)) as [|t0 tuples]; [done|].
    simpl in Htup. injection Htup as Ht0 Htup.
    simpl. rewrite Ht0, Htotal by (done || lia).
    destruct (T 0) as [p0|] eqn:ET0; simpl.
    + destruct (verify_loop_first_violation (build_digit_map <$> partition)
                  (Py.len partition) D T tuples 1 (Z.pred N) p0) as [_ Ht];
        [lia|done|intros i ?; apply Htotal; [done|lia]|done|].
      change (0 + 1) with 1. rewrite Ht. split.
      * intros Hmono. right. split; [done|]. split.
        -- intros j Hj. destruct (decide (j = 0)) as [->|Hne]; [by rewrite ET0|].
           destruct (Hmono j) as (tj & pj & -> & _); [lia|]. done.
        -- intros j tj pj Hj Htj Hpj.
           destruct (Hmono j) as (tj' & pj' & Htj' & Hpj' & Hle); [lia|].
           rewrite Htj in Htj'. rewrite Hpj in Hpj'. by simplify_eq.
      * intros [?|(_ & Hsome & Hmono)]; [done|]. intros j Hj.
        destruct (Hsome j) as [tj Htj]; [lia|].
        destruct (Hsome (j - 1)) as [pj Hpj]; [lia|].
        exists tj, pj. split_and!; [done..|]. eapply Hmono; [|done..]. lia.
    + split; [done|]. intros [?|(_ & Hsome & _)]; [done|].
      destruct (Hsome 0) as [? Hs]; [lia|]. by rewrite ET0 in Hs.
  - intros Hm. pose proof (radices_match_length _ _ Hm) as Hlen.
    split; [done|]. split.
    + intros j Hj. rewrite <- Htotal by done.
      unfold D, rs, k. rewrite (radices_match_take _ _ Hm).
      fold (digits_at partition j). by rewrite digits_total_defined.
    + by apply verify_match.
Qed.

Lemma verify_reports_first_violation_witness :
  verify [[1]; [2; 2]] [2; 4] = Some (false, Some (Diagnostic 4 [0; 2] 2 3)).
Proof.
  destruct (verify_reports_first_violation [[1]; [2; 2]] [2; 4]) as (_ & Hfail & _).
  apply Hfail. split; [simpl; lia|].
  exists 4, 2, 3. split_and!.
  - by vm_compute.
  - by vm_compute.
  - vm_compute. reflexivity.
  - vm_compute. reflexivity.
  - lia.
  - intros j Hj.
    assert (j = 1 ∨ j = 2 ∨ j = 3) as [->|[->| ->]] by lia.
    + exists 1, 0. split_and!; [vm_compute; reflexivity..|lia].
    + exists 2, 1. split_and!; [vm_compute; reflexivity..|lia].
    + exists 3, 2. split_and!; [vm_compute; reflexivity..|lia].
  - reflexivity.
Defined.
